(** * bottom: an asyncio IRC client core (bottom.py)

    A shallow embedding of [get_command], [Handler], [Connection] and
    [Client.on] from bottom.py, and the properties of command
    normalisation, handler registration, event dispatch and the
    connection life cycle that follow from the code.

    Conventions of the embedding.
    - A Python [str] is the Rocq string of its UTF-8 encoding, so that a
      character is one to four bytes.  [strip] removes the white space
      [str.strip] removes, in its one, two and three byte encodings.
      [upper] is [str.upper] on ASCII text; it leaves the bytes of other
      characters as they are, where [str.upper] follows the Unicode
      tables, and the properties that rest on the case mapping of a token
      are stated for ASCII tokens ([isascii]).
    - The modules [rfc] and [route] are imported by bottom.py and are not
      part of it: their functions are parameters of the development
      (Section [Bottom]), a call that raises being a result [None]; only
      [route.validate] is given a definition, after its description.
    - Python objects that are compared by identity (the coroutine
      functions stored in the handler sets) carry an explicit identity,
      drawn from an allocation counter.
    - asyncio is cooperative and single threaded.  A coroutine is a finite
      script of visible actions and suspension points, possibly ending in a
      wait that is never satisfied; [asyncio_wait] is the event loop
      running a group of tasks first-in first-out until none can run.
    - Every operation that runs on the event loop is a function from the
      world (connection, registry, network position, observed trace) to
      an outcome: a normal return, a raised exception, or a stall. *)

From stdpp Require Import gmap strings list fin_maps.
From Stdlib Require Import Ascii ZArith Lia.

Local Open Scope nat_scope.
Local Open Scope stdpp_scope.

(** ** Strings: [str.upper] and [str.strip] *)

(** [str.upper] on the ASCII range: a-z become A-Z. *)
Definition upper_char (c : ascii) : ascii :=
  let n := nat_of_ascii c in
  if (97 <=? n) && (n <=? 122) then ascii_of_nat (n - 32) else c.

Fixpoint upper (s : string) : string :=
  match s with
  | EmptyString => EmptyString
  | String c s' => String (upper_char c) (upper s')
  end.

(** The characters [str.strip] removes.  In one byte: tab, newline,
    vertical tab, form feed, carriage return, the four separators
    0x1c-0x1f and the space. *)
Definition isspace (c : ascii) : bool :=
  let n := nat_of_ascii c in
  ((9 <=? n) && (n <=? 13)) || ((28 <=? n) && (n <=? 32)).

(** In two bytes: U+0085 (c2 85) and U+00A0 (c2 a0). *)
Definition isspace2 (a b : ascii) : bool :=
  let a := nat_of_ascii a in
  let b := nat_of_ascii b in
  (a =? 194) && ((b =? 133) || (b =? 160)).

(** In three bytes: U+1680 (e1 9a 80), U+2000-U+200A (e2 80 80-8a),
    U+2028, U+2029 and U+202F (e2 80 a8, a9, af), U+205F (e2 81 9f) and
    U+3000 (e3 80 80). *)
Definition isspace3 (a b c : ascii) : bool :=
  let a := nat_of_ascii a in
  let b := nat_of_ascii b in
  let c := nat_of_ascii c in
  ((a =? 225) && (b =? 154) && (c =? 128)) ||
  ((a =? 226) && (b =? 128) &&
   (((128 <=? c) && (c <=? 138)) || (c =? 168) || (c =? 169) || (c =? 175))) ||
  ((a =? 226) && (b =? 129) && (c =? 159)) ||
  ((a =? 227) && (b =? 128) && (c =? 128)).

(** [str.lstrip]: the white-space characters the text begins with are
    removed. *)
Fixpoint lstrip (s : string) : string :=
  match s with
  | EmptyString => s
  | String a s1 =>
      if isspace a then lstrip s1 else
      match s1 with
      | EmptyString => s
      | String b s2 =>
          if isspace2 a b then lstrip s2 else
          match s2 with
          | EmptyString => s
          | String c s3 => if isspace3 a b c then lstrip s3 else s
          end
      end
  end.

(** A string of white space only, the empty string included. *)
Definition blank (s : string) : bool :=
  match lstrip s with
  | EmptyString => true
  | String _ _ => false
  end.

(** [str.rstrip]: the text is cut where what is left of it is white
    space only. *)
Fixpoint rstrip (s : string) : string :=
  match s with
  | EmptyString => s
  | String a s1 => if blank s then EmptyString else String a (rstrip s1)
  end.

Definition strip (s : string) : string :=
  rstrip (lstrip s).

(** ** Values, coroutines and observable events *)

(** The values carried by a field mapping: text and integers (the port). *)
Inductive pyval : Type :=
| VStr (s : string)
| VInt (n : Z).

Abbreviation kwargs := (gmap string pyval).

(** Identity of a Python object. *)
Abbreviation objid := positive.

Inductive outcome : Type :=
| Returned
| Raised (e : string).

(** What a started handler does, as the event loop sees it. *)
Inductive coro : Type :=
| Return                      (* the body returns *)
| Raise (e : string)          (* the body raises [e] *)
| Do (a : string) (k : coro)  (* a visible side effect, then [k] *)
| Yield (k : coro)            (* suspends; the loop resumes it with [k] *)
| Never.                      (* waits for something that never happens *)

(** A callable registered by user code: the names its signature declares
    and its behaviour on the arguments it is called with. *)
Record func : Type := Func {
  parameters : list string;
  body : kwargs -> coro
}.

(** The callable stored in the registry: it takes the field mapping. *)
Abbreviation invoker := (kwargs -> coro).

Inductive exn : Type :=
| UnknownCommand (token : string)  (* raised by rfc.unique_command *)
| BindingError (command : string)  (* raised by route.validate *)
| ConnectionError                  (* raised by asyncio.open_connection *)
| AttributeError                   (* a method called on None *)
| ValueError.                      (* raised by asyncio.wait on no task *)

Inductive event : Type :=
| Opened (host : string) (port : Z)    (* open_connection returned streams *)
| Refused (host : string) (port : Z)   (* open_connection raised *)
| Closed (w : nat)                     (* writer.close() *)
| Dispatched (command : string) (kw : kwargs)  (* Handler.__call__ entered *)
| Launched (id : objid)                (* a task was made of coro(kwargs) *)
| Did (id : objid) (a : string)        (* a side effect of that task *)
| Completed (id : objid) (r : outcome) (* the task finished *)
| Resumed.                             (* Handler.__call__ returned *)

(** ** The registry and the connection *)

(** [coros]: collections.defaultdict(set), command to set of coroutine
    functions.  The functions are hashed by identity, so a set of them is
    a finite map from identity to function.  [allocated] is the identity
    the next new function object gets. *)
Record Handler : Type := mkHandler {
  coros : gmap string (gmap objid invoker);
  allocated : objid
}.

(** Handler.__init__ *)
Definition Handler_init : Handler :=
  {| coros := ∅; allocated := 1%positive |}.

(** [reader]: the lines the stream will still deliver, as text (what
    decoding makes of the bytes of each), or None.
    [writer]: the stream writer (named by the connection attempt that
    made it), or None. *)
Record Connection : Type := mkConnection {
  host : string;
  port : Z;
  reader : option (list string);
  writer : option nat
}.

(** Connection.__init__ (the handler is kept in the world, below). *)
Definition Connection_init (h : string) (p : Z) : Connection :=
  {| host := h; port := p; reader := None; writer := None |}.

Record world : Type := mkWorld {
  conn : Connection;
  handle : Handler;
  attempts : nat;          (* how many times open_connection was called *)
  trace : list event       (* what happened so far, oldest first *)
}.

(** Client.__init__ *)
Definition Client_init (h : string) (p : Z) : world :=
  {| conn := Connection_init h p; handle := Handler_init;
     attempts := 0; trace := [] |}.

Definition set_conn (c : Connection) (w : world) : world :=
  {| conn := c; handle := handle w; attempts := attempts w; trace := trace w |}.

Definition set_handle (h : Handler) (w : world) : world :=
  {| conn := conn w; handle := h; attempts := attempts w; trace := trace w |}.

Definition emit (t : list event) (w : world) : world :=
  {| conn := conn w; handle := handle w; attempts := attempts w;
     trace := trace w ++ t |}.

(** ** Outcomes and sequencing of operations on the event loop *)

Inductive result (A : Type) : Type :=
| Ok (a : A) (w : world)      (* returned [a] *)
| Exn (e : exn) (w : world)   (* raised [e] *)
| Hang (w : world).           (* suspended for ever *)

Arguments Ok {A} a w.
Arguments Exn {A} e w.
Arguments Hang {A} w.

Definition M (A : Type) : Type := world -> result A.

Definition ret {A} (a : A) : M A := fun w => Ok a w.

Definition bind {A B} (m : M A) (f : A -> M B) : M B :=
  fun w =>
    match m w with
    | Ok a w' => f a w'
    | Exn e w' => Exn e w'
    | Hang w' => Hang w'
    end.

Notation "x <- m ;; k" := (bind m (fun x => k))
  (at level 100, m at next level, right associativity).
Notation "m ;;; k" := (bind m (fun _ => k))
  (at level 100, right associativity).

(** The world an operation ends in, whatever its outcome. *)
Definition final {A} (r : result A) : world :=
  match r with
  | Ok _ w => w
  | Exn _ w => w
  | Hang w => w
  end.

(** ** asyncio.wait: the event loop running a group of tasks *)

Inductive status : Type :=
| Suspended (k : coro)
| Ended
| Blocked.

(** One turn of a task: it runs up to its next suspension point. *)
Fixpoint resume (id : objid) (c : coro) : list event * status :=
  match c with
  | Return => ([Completed id Returned], Ended)
  | Raise e => ([Completed id (Raised e)], Ended)
  | Do a k => let '(t, s) := resume id k in (Did id a :: t, s)
  | Yield k => ([], Suspended k)
  | Never => ([], Blocked)
  end.

(** The ready queue of the loop: the task at the head runs one turn and,
    if it suspended, goes to the back.  Returns what was observed and the
    tasks that can never finish. *)
Fixpoint run_ready (fuel : nat) (ready : list (objid * coro))
  : list event * list objid :=
  match fuel with
  | O => ([], ready.*1)
  | S fuel' =>
      match ready with
      | [] => ([], [])
      | (id, c) :: q =>
          let '(t, s) := resume id c in
          let '(t', b) :=
            match s with
            | Suspended k => run_ready fuel' (q ++ [(id, k)])
            | Ended => run_ready fuel' q
            | Blocked =>
                let '(t', b) := run_ready fuel' q in (t', id :: b)
            end in
          (t ++ t', b)
      end
  end.

(** Number of turns a task can still take, counting the last one. *)
Fixpoint turns (c : coro) : nat :=
  match c with
  | Return | Raise _ | Never => 1
  | Do _ k => turns k
  | Yield k => S (turns k)
  end.

Definition total_turns (ready : list (objid * coro)) : nat :=
  foldr (fun t n => turns t.2 + n) 0 ready.

(** asyncio.wait(tasks), return_when=ALL_COMPLETED: it refuses an empty
    collection; otherwise every awaitable is made a task, and the caller is
    resumed when all of them are done.  A task that raised is done; its
    exception stays in the task. *)
Definition asyncio_wait (tasks : list (objid * coro)) : M unit :=
  fun w =>
    match tasks with
    | [] => Exn ValueError w
    | _ :: _ =>
        let '(t, b) := run_ready (total_turns tasks) tasks in
        let w' := emit (Launched <$> tasks.*1) w in
        match b with
        | [] => Ok tt (emit t w')
        | _ :: _ => Hang (emit t w')
        end
    end.

(** ** The module: commands, registration, dispatch, connection *)

Definition LOCAL_COMMANDS : gset string :=
  {[ "CLIENT_CONNECT"; "CLIENT_DISCONNECT" ]}.

(** A parsed line: (prefix, command, params, message). *)
Abbreviation parsed := (string * string * list string * string)%type.

(** collections.defaultdict(set).__getitem__: a missing key is inserted
    with an empty set, which is then the value read. *)
Definition getitem (d : gmap string (gmap objid invoker)) (k : string)
  : gmap objid invoker * gmap string (gmap objid invoker) :=
  match d !! k with
  | Some s => (s, d)
  | None => (∅, <[k := ∅]> d)
  end.

(** What [d[k]] evaluates to. *)
Definition handlers_of (d : gmap string (gmap objid invoker)) (k : string)
  : gmap objid invoker :=
  (getitem d k).1.

(** [coro(kwargs) for coro in coros]: the coroutine objects, not yet
    started, in the order the set is iterated. *)
Definition tasks_for (s : gmap objid invoker) (kw : kwargs)
  : list (objid * coro) :=
  (fun '(id, f) => (id, f kw)) <$> map_to_list s.

Section Bottom.

(** rfc.unique_command: the canonical name of a protocol command, or
    None when it raises for a token the protocol table does not know. *)
Variable unique_command : string -> option string.

(** rfc.parse: the parsed line, or None for the falsy result it gives
    on a line it does not understand. *)
Variable parse : string -> option parsed.

(** route.unpack: the command and the field mapping of a parsed line. *)
Variable unpack : parsed -> string * kwargs.

(** The field names route knows for a command. *)
Variable fields : string -> list string.

(** route.partial_bind: the function that takes the field mapping and
    calls the handler with the arguments its signature names. *)
Variable partial_bind : string -> func -> invoker.

(** asyncio.open_connection: what the n-th attempt finds, the lines the
    server sends before it closes the stream, or None when the attempt
    raises. *)
Variable server : nat -> option (list string).

(** get_command *)
Definition get_command (command : string) : option string :=
  let command := upper command in
  if bool_decide (command ∈ LOCAL_COMMANDS) then Some command
  else unique_command command.

(** Modelled from the spec: route.validate, which is not in bottom.py.
    It accepts a handler when every parameter its signature declares is
    a legal field name of the command, and raises otherwise. *)
Definition validate (command : string) (f : func) : bool :=
  bool_decide (parameters f ⊆ fields command).

(** Handler.add.  asyncio.coroutine(partial) wraps the callable it is
    given in a new function object on every call; [coro] is the identity
    of that object, which the set receives. *)
Definition add (command : string) (f : func) (h : Handler) : exn + Handler :=
  match get_command command with
  | None => inl (UnknownCommand (upper command))
  | Some command =>
      if validate command f then
        let partial := partial_bind command f in
        let coro := allocated h in
        let '(s, d) := getitem (coros h) command in
        inr {| coros := <[command := <[coro := partial]> s]> d;
               allocated := Pos.succ (allocated h) |}
      else inl (BindingError command)
  end.

(** Client.on(command)(func): the decorator normalises the command when
    it is made, and registers when it is applied. *)
Definition on (command : string) (f : func) (h : Handler) : exn + Handler :=
  match get_command command with
  | None => inl (UnknownCommand (upper command))
  | Some command => add command f h
  end.

(** Handler.__call__ *)
Definition call (command : string) (kw : kwargs) : M unit :=
  fun w =>
    match get_command command with
    | None => Exn (UnknownCommand (upper command)) w
    | Some c =>
        let '(s, d) := getitem (coros (handle w)) c in
        let w := set_handle {| coros := d;
                               allocated := allocated (handle w) |} w in
        let w := emit [Dispatched c kw] w in
        if bool_decide (s = ∅) then Ok tt (emit [Resumed] w)
        else
          let tasks := tasks_for s kw in
          match asyncio_wait tasks w with
          | Ok _ w' => Ok tt (emit [Resumed] w')
          | r => r
          end
    end.

Definition lifecycle_fields (c : Connection) : kwargs :=
  {[ "host" := VStr (host c); "port" := VInt (port c) ]}.

(** Connection.connect *)
Definition connect : M unit :=
  fun w =>
    let c := conn w in
    let n := attempts w in
    let w := {| conn := c; handle := handle w;
                attempts := S n; trace := trace w |} in
    match server n with
    | None => Exn ConnectionError (emit [Refused (host c) (port c)] w)
    | Some lines =>
        let c := {| host := host c; port := port c;
                    reader := Some lines; writer := Some n |} in
        let w := emit [Opened (host c) (port c)] (set_conn c w) in
        call "CLIENT_CONNECT" (lifecycle_fields c) w
    end.

(** Connection.disconnect *)
Definition disconnect : M unit :=
  fun w =>
    let c := conn w in
    let c := match reader c with
             | Some _ => {| host := host c; port := port c;
                            reader := None; writer := writer c |}
             | None => c
             end in
    let w := set_conn c w in
    let w := match writer c with
             | Some wr =>
                 set_conn {| host := host c; port := port c;
                             reader := reader c; writer := None |}
                          (emit [Closed wr] w)
             | None => w
             end in
    call "CLIENT_DISCONNECT" (lifecycle_fields (conn w)) w.

(** Connection.reconnect *)
Definition reconnect : M unit :=
  disconnect ;;; connect.

(** Connection.read: one line, decoded and stripped.  The lines of the
    stream are held as the text decoding gives; the stream gives the
    empty line once the peer has closed it, and it is taken to raise no
    error of the transport, which Connection.read would let through. *)
Definition read : M string :=
  fun w =>
    let c := conn w in
    match reader c with
    | None => Exn AttributeError w
    | Some [] => Ok (strip "") w
    | Some (msg :: rest) =>
        Ok (strip msg)
           (set_conn {| host := host c; port := port c;
                        reader := Some rest; writer := writer c |} w)
    end.

(** The body of the [while True] of Connection.loop. *)
Definition loop_body : M unit :=
  msg <- read ;;
  if bool_decide (msg ≠ "") then
    match parse msg with
    | None => ret tt
    | Some args =>
        let '(command, kwargs) := unpack args in
        call command kwargs
    end
  else reconnect.

(** [n] turns of the [while True]. *)
Fixpoint iterate (n : nat) (m : M unit) : M unit :=
  match n with
  | O => ret tt
  | S n' => m ;;; iterate n' m
  end.

(** Connection.loop, cut after [n] turns of its [while True]. *)
Definition loop (n : nat) : M unit :=
  connect ;;; iterate n loop_body.

End Bottom.

(** ** Sending *)

(** The line terminator of the wire. *)
Definition newline : string := String (ascii_of_nat 10) "".

(** Connection.send: the message is stripped, logged, and written with a
    newline to the writer.  The result is the writer and the text written
    to it, or the error of calling write on None; the text is taken to be
    what its encoding carries. *)
Definition send (msg : string) (c : Connection) : exn + (nat * string) :=
  let msg := strip msg in
  match writer c with
  | None => inl AttributeError
  | Some wr => inr (wr, msg +:+ newline)
  end.

(** Client.send: the line rfc.wire_format makes of the command, its
    parameters, the message and the prefix is handed to Connection.send;
    rfc.wire_format is not part of bottom.py and is a parameter. *)
Definition Client_send
    (wire_format : string -> list pyval -> option string -> option string
                   -> string)
    (command : string) (params : list pyval)
    (message prefix : option string) (c : Connection)
  : exn + (nat * string) :=
  send (wire_format command params message prefix) c.

(** ** Vocabulary of the properties *)

(** The names the protocol table gives are upper case and, unless they
    are names of life cycle events, are given back for themselves. *)
Definition canonical_table (unique_command : string -> option string) : Prop :=
  forall t c,
    unique_command (upper t) = Some c ->
    upper c = c /\ (c ∉ LOCAL_COMMANDS -> unique_command c = Some c).

(** A coroutine that finishes, by returning or by raising. *)
Fixpoint halts (c : coro) : Prop :=
  match c with
  | Return | Raise _ => True
  | Do _ k | Yield k => halts k
  | Never => False
  end.

#[global] Instance halts_dec (c : coro) : Decision (halts c).
Proof. induction c; cbn; apply _. Defined.

(** The events a running task produces. *)
Definition task_event (ids : list objid) (e : event) : Prop :=
  match e with
  | Did id _ | Completed id _ => id ∈ ids
  | _ => False
  end.

(** The tasks launched and not yet finished after [t], given those, [p],
    in flight before it. *)
Fixpoint in_flight (p : gset objid) (t : list event) : gset objid :=
  match t with
  | [] => p
  | Launched id :: t' => in_flight (p ∪ {[id]}) t'
  | Completed id _ :: t' => in_flight (p ∖ {[id]}) t'
  | _ :: t' => in_flight p t'
  end.

(** A trace in which no dispatch begins, and none returns, while a task
    is in flight. *)
Fixpoint serialized (p : gset objid) (t : list event) : Prop :=
  match t with
  | [] => True
  | e :: t' =>
      match e with
      | Dispatched _ _ | Resumed => p = ∅
      | _ => True
      end /\ serialized (in_flight p [e]) t'
  end.

#[global] Instance serialized_dec (p : gset objid) (t : list event) :
  Decision (serialized p t).
Proof.
  revert p. induction t as [|e t IH]; intros p; cbn; [apply _|].
  destruct e; apply _.
Defined.

(** The state between two events of the read loop: the trace so far is
    serialized and nothing is in flight. *)
Definition quiet (w : world) : Prop :=
  serialized ∅ (trace w) /\ in_flight ∅ (trace w) = ∅.

(** The world in which the handlers of a dispatch run. *)
Definition entered (c : string) (kw : kwargs) (w : world) : world :=
  emit [Dispatched c kw]
    (set_handle {| coros := (getitem (coros (handle w)) c).2;
                   allocated := allocated (handle w) |} w).

(** An operation that keeps the trace serialized, and that returns with
    nothing in flight when it is entered with nothing in flight. *)
Definition orderly {A} (m : M A) : Prop :=
  forall w, quiet w ->
    serialized ∅ (trace (final (m w))) /\
    forall a w', m w = Ok a w' -> quiet w'.

(** The connection once its streams are released. *)
Definition released (c : Connection) : Connection :=
  {| host := host c; port := port c; reader := None; writer := None |}.

(** What releasing the streams shows: the writer, if any, is closed. *)
Definition closing (c : Connection) : list event :=
  match writer c with
  | Some wr => [Closed wr]
  | None => []
  end.

(** Events of the tasks of a group, their launch included. *)
Definition group_event (e : event) : Prop :=
  match e with
  | Launched _ | Did _ _ | Completed _ _ => True
  | _ => False
  end.

(** The tasks launched in a trace. *)
Definition launches (t : list event) : list objid :=
  omap (fun e => match e with Launched id => Some id | _ => None end) t.

(** The side effects seen in a trace. *)
Definition effects (t : list event) : list (objid * string) :=
  omap (fun e => match e with Did id a => Some (id, a) | _ => None end) t.

(** How a coroutine finishes, if it does. *)
Fixpoint ending (c : coro) : option outcome :=
  match c with
  | Return => Some Returned
  | Raise e => Some (Raised e)
  | Do _ k | Yield k => ending k
  | Never => None
  end.

(** A string with no white space at either end. *)
Definition trimmed (s : string) : Prop :=
  lstrip s = s /\ rstrip s = s.

(** The bytes a white-space character can begin with. *)
Definition leading (a : ascii) : bool :=
  let n := nat_of_ascii a in
  isspace a || (n =? 194) || (n =? 225) || (n =? 226) || (n =? 227).

(** [str.isascii]: text of ASCII characters only, on which [upper] is
    [str.upper]. *)
Fixpoint isascii (s : string) : bool :=
  match s with
  | EmptyString => true
  | String c s' => (nat_of_ascii c <? 128) && isascii s'
  end.

(** Text with no newline in it. *)
Fixpoint one_line (s : string) : bool :=
  match s with
  | EmptyString => true
  | String c s' => negb (nat_of_ascii c =? 10) && one_line s'
  end.

(** The lines StreamReader.readline makes of a text: each ends with its
    newline, but for a last one that the text leaves unfinished. *)
Fixpoint lines_of (s : string) : list string :=
  match s with
  | EmptyString => []
  | String c s' =>
      if nat_of_ascii c =? 10 then String c "" :: lines_of s'
      else match lines_of s' with
           | [] => [String c ""]
           | l :: ls => String c l :: ls
           end
  end.

(** What no operation of the connection changes: the address, the
    allocator, and the set of handlers of every command. *)
Definition stable (w w' : world) : Prop :=
  host (conn w') = host (conn w) /\ port (conn w') = port (conn w) /\
  allocated (handle w') = allocated (handle w) /\
  forall k, handlers_of (coros (handle w')) k
            = handlers_of (coros (handle w)) k.

Definition keeps {A} (m : M A) : Prop :=
  forall w, stable w (final (m w)).

(** The connection has its streams, the writer being that of the latest
    attempt to connect. *)
Definition connected (w : world) : Prop :=
  is_Some (reader (conn w)) /\
  writer (conn w) = Some (pred (attempts w)) /\ 0 < attempts w.

(** A registry whose bindings are all older than its allocator. *)
Definition wf_handler (h : Handler) : Prop :=
  forall k id, is_Some (handlers_of (coros h) k !! id) ->
               (id < allocated h)%positive.

(** The events of one task. *)
Definition own (id : objid) (e : event) : bool :=
  match e with
  | Did id' _ | Completed id' _ => bool_decide (id' = id)
  | _ => false
  end.

Definition events_of (id : objid) (t : list event) : list event :=
  List.filter (own id) t.

(** What a coroutine shows when it is run as far as it goes. *)
Fixpoint script (id : objid) (c : coro) : list event :=
  match c with
  | Return => [Completed id Returned]
  | Raise e => [Completed id (Raised e)]
  | Do a k => Did id a :: script id k
  | Yield k => script id k
  | Never => []
  end.

(** The events dispatched in a trace: command and fields. *)
Definition dispatches (t : list event) : list (string * kwargs) :=
  omap (fun e => match e with Dispatched c kw => Some (c, kw) | _ => None end)
       t.

(** The event a line of the server stands for: its normalised command
    and its fields, when the parser understands the line and the command
    normalises. *)
Definition decoded
    (unique_command : string -> option string)
    (parse : string -> option parsed)
    (unpack : parsed -> string * kwargs)
    (line : string) : option (string * kwargs) :=
  match parse (strip line) with
  | None => None
  | Some args =>
      match get_command unique_command (unpack args).1 with
      | None => None
      | Some c => Some (c, (unpack args).2)
      end
  end.

(** A registry all of whose keys are normalised commands. *)
Definition canonical_keys
    (unique_command : string -> option string) (h : Handler) : Prop :=
  forall k, is_Some (coros h !! k) ->
            exists token, get_command unique_command token = Some k.

Definition keeps_keys
    (unique_command : string -> option string) {A} (m : M A) : Prop :=
  forall w, canonical_keys unique_command (handle w) ->
            canonical_keys unique_command (handle (final (m w))).

(** Counting the events of a kind in a trace. *)
Definition count (p : event -> bool) (t : list event) : nat :=
  length (List.filter p t).

Definition is_opened (e : event) : bool :=
  match e with Opened _ _ => true | _ => false end.

Definition is_closed (e : event) : bool :=
  match e with Closed _ => true | _ => false end.

Definition is_dispatch (c : string) (e : event) : bool :=
  match e with Dispatched c' _ => bool_decide (c' = c) | _ => false end.

(** As many CLIENT_CONNECT events as connections opened, as many
    CLIENT_DISCONNECT events as writers closed. *)
Definition lifecycle_balanced (t : list event) : Prop :=
  count is_opened t = count (is_dispatch "CLIENT_CONNECT") t /\
  count is_closed t = count (is_dispatch "CLIENT_DISCONNECT") t.

(** A line that does not decode to the name of a life cycle event: the
    command the parser finds in it, if it finds one, is an ASCII token,
    and the line does not decode to such a name. *)
Definition wire_safe
    (unique_command : string -> option string)
    (parse : string -> option parsed)
    (unpack : parsed -> string * kwargs)
    (line : string) : Prop :=
  (forall args, parse (strip line) = Some args ->
                isascii (unpack args).1 = true) /\
  forall c kw, decoded unique_command parse unpack line = Some (c, kw) ->
               c ∉ LOCAL_COMMANDS.

(** The state in which the loop reads: connected, with only such lines
    to come on the stream. *)
Definition ready_to_read
    (unique_command : string -> option string)
    (parse : string -> option parsed)
    (unpack : parsed -> string * kwargs)
    (w : world) : Prop :=
  connected w /\
  forall lines line, reader (conn w) = Some lines -> line ∈ lines ->
                     wire_safe unique_command parse unpack line.

(** An operation that adds a balanced piece to the trace and, entered in
    [pre], returns in [post]. *)
Definition paced (pre post : world -> Prop) {A} (m : M A) : Prop :=
  forall w, pre w ->
    exists u, trace (final (m w)) = trace w ++ u /\
              lifecycle_balanced u /\
              forall a w', m w = Ok a w' -> post w'.

(** ** A small instance of the collaborators *)

Module Sample.

(** A protocol table with one numeric reply that has two names. *)
Definition table : gmap string string :=
  list_to_map [("JOIN", "JOIN"); ("PING", "PING"); ("PRIVMSG", "PRIVMSG");
               ("001", "RPL_WELCOME"); ("RPL_WELCOME", "RPL_WELCOME")].

Definition unique_command (command : string) : option string :=
  table !! command.

(** [:prefix COMMAND params...]; a line without a command is not
    understood. *)
Definition parse (msg : string) : option parsed :=
  match String.words msg with
  | [] => None
  | String ":" p :: [] => None
  | String ":" p :: c :: ps => Some (p, c, ps, "")
  | c :: ps => Some ("", c, ps, "")
  end.

Definition unpack (args : parsed) : string * kwargs :=
  let '(prefix, command, params, message) := args in
  (command, {[ "prefix" := VStr prefix; "message" := VStr message ]}).

Definition fields (command : string) : list string :=
  if bool_decide (command ∈ LOCAL_COMMANDS) then ["host"; "port"]
  else ["prefix"; "message"].

Definition partial_bind (command : string) (f : func) : invoker :=
  fun kw => body f (filter (fun p => p.1 ∈ parameters f) kw).

(** The first connection delivers two lines and closes; the second
    delivers one; later attempts are refused. *)
Definition server (n : nat) : option (list string) :=
  match n with
  | 0 => Some ["PING irc.example.org"; ":irc.example.org 001 bot"]
  | 1 => Some ["PING irc.example.org"]
  | _ => None
  end.


(** Characters outside ASCII: the no-break space U+00A0 and the em space
    U+2003, which are white space, and the letter U+00E0, which shares
    its last byte with the no-break space. *)
Definition nbsp : string :=
  String (ascii_of_nat 194) (String (ascii_of_nat 160) "").
Definition emsp : string :=
  String (ascii_of_nat 226) (String (ascii_of_nat 128)
                                    (String (ascii_of_nat 131) "")).
Definition agrave : string :=
  String (ascii_of_nat 195) (String (ascii_of_nat 160) "").

(** Handlers: one that sends twice around a suspension point, one that
    raises at once, one that never finishes, one with a parameter that
    no command provides. *)
Definition greet : func :=
  Func ["host"] (fun _ => Do "send NICK" (Yield (Do "send JOIN" Return))).
Definition faulty : func :=
  Func ["host"; "port"] (fun _ => Raise "boom").
Definition stuck : func :=
  Func [] (fun _ => Do "wait" Never).
Definition greedy : func :=
  Func ["host"; "nick"] (fun _ => Return).
Definition pong : func :=
  Func ["message"] (fun _ => Do "send PONG" Return).

Definition registered (l : list (string * func)) : Handler :=
  foldl (fun h cf =>
           match add unique_command fields partial_bind cf.1 cf.2 h with
           | inr h' => h'
           | inl _ => h
           end) Handler_init l.

End Sample.

(** * Properties *)

(** ** Command normalisation *)

Lemma upper_char_idem (c : ascii) : upper_char (upper_char c) = upper_char c.
Proof. by destruct c as [[] [] [] [] [] [] [] []]. Qed.

Lemma upper_idem (s : string) : upper (upper s) = upper s.
Proof.
  induction s as [|c s IH]; [done|].
  cbn [upper]. by rewrite upper_char_idem, IH.
Qed.

Lemma LOCAL_COMMANDS_upper (c : string) : c ∈ LOCAL_COMMANDS -> upper c = c.
Proof.
  unfold LOCAL_COMMANDS.
  rewrite elem_of_union, !elem_of_singleton. by intros [-> | ->].
Qed.

Lemma elem_of_LOCAL_COMMANDS (c : string) :
  c ∈ LOCAL_COMMANDS <-> c = "CLIENT_CONNECT" \/ c = "CLIENT_DISCONNECT".
Proof.
  unfold LOCAL_COMMANDS. by rewrite elem_of_union, !elem_of_singleton.
Qed.

Lemma CLIENT_CONNECT_local : "CLIENT_CONNECT" ∈ LOCAL_COMMANDS.
Proof. apply elem_of_union. left. by apply elem_of_singleton. Qed.

Lemma CLIENT_DISCONNECT_local : "CLIENT_DISCONNECT" ∈ LOCAL_COMMANDS.
Proof. apply elem_of_union. right. by apply elem_of_singleton. Qed.

Section Normalisation.

Variable unique_command : string -> option string.

Lemma get_command_local (t : string) :
  upper t ∈ LOCAL_COMMANDS -> get_command unique_command t = Some (upper t).
Proof. intros H. unfold get_command. by rewrite bool_decide_true. Qed.

Lemma get_command_protocol (t : string) :
  upper t ∉ LOCAL_COMMANDS ->
  get_command unique_command t = unique_command (upper t).
Proof. intros H. unfold get_command. by rewrite bool_decide_false. Qed.

Lemma get_command_upper (t : string) :
  get_command unique_command (upper t) = get_command unique_command t.
Proof. unfold get_command. by rewrite upper_idem. Qed.

Lemma get_command_lifecycle (c : string) :
  c ∈ LOCAL_COMMANDS -> get_command unique_command c = Some c.
Proof.
  intros H. rewrite get_command_local; rewrite (LOCAL_COMMANDS_upper c H); done.
Qed.

End Normalisation.

(** ** The registry *)

Lemma getitem_lookup d k :
  (getitem d k).2 !! k = Some (handlers_of d k).
Proof.
  unfold handlers_of, getitem.
  destruct (d !! k) eqn:E; cbn; [done|]. by rewrite lookup_insert_eq.
Qed.

Lemma handlers_of_getitem d k k' :
  handlers_of (getitem d k).2 k' = handlers_of d k'.
Proof.
  unfold handlers_of, getitem.
  destruct (d !! k) eqn:E; cbn; [done|].
  destruct (decide (k = k')) as [<-|Hne].
  - by rewrite lookup_insert_eq, E.
  - rewrite lookup_insert_ne by done. by destruct (d !! k').
Qed.

Lemma handlers_of_insert d k s :
  handlers_of (<[k := s]> d) k = s.
Proof. unfold handlers_of, getitem. by rewrite lookup_insert_eq. Qed.

Lemma handlers_of_insert_ne d k k' s :
  k ≠ k' -> handlers_of (<[k := s]> d) k' = handlers_of d k'.
Proof.
  intros H. unfold handlers_of, getitem.
  rewrite lookup_insert_ne by done. by destruct (d !! k').
Qed.

Lemma getitem_surjective d k : getitem d k = (handlers_of d k, (getitem d k).2).
Proof. unfold handlers_of. by destruct (getitem d k). Qed.

Section Registration.

Variable unique_command : string -> option string.
Variable fields : string -> list string.
Variable partial_bind : string -> func -> invoker.

Lemma add_accepts command f h c :
  get_command unique_command command = Some c ->
  parameters f ⊆ fields c ->
  add unique_command fields partial_bind command f h =
    inr {| coros := <[c := <[allocated h := partial_bind c f]>
                              (handlers_of (coros h) c)]>
                      (getitem (coros h) c).2;
           allocated := Pos.succ (allocated h) |}.
Proof.
  intros Hc Hsub. unfold add, validate. rewrite Hc.
  rewrite (bool_decide_true _ Hsub).
  by rewrite (getitem_surjective (coros h) c).
Qed.

Lemma add_rejects command f h c :
  get_command unique_command command = Some c ->
  ¬ parameters f ⊆ fields c ->
  add unique_command fields partial_bind command f h = inl (BindingError c).
Proof.
  intros Hc Hsub. unfold add, validate. rewrite Hc.
  by rewrite (bool_decide_false _ Hsub).
Qed.

Lemma on_add command f h c :
  get_command unique_command command = Some c ->
  on unique_command fields partial_bind command f h =
    add unique_command fields partial_bind c f h.
Proof. intros Hc. unfold on. by rewrite Hc. Qed.

End Registration.

(** ** The event loop *)

Lemma ids_rotate (id : objid) (ids : list objid) (x : objid) :
  x ∈ ids ++ [id] <-> x ∈ id :: ids.
Proof.
  split; intros H.
  - apply elem_of_app in H as [H|H]; [by right|].
    apply list_elem_of_singleton in H as ->. by left.
  - apply elem_of_app.
    apply elem_of_cons in H as [->|H]; [right|by left].
    by apply list_elem_of_singleton.
Qed.

Lemma task_event_mono ids ids' e :
  ids ⊆ ids' -> task_event ids e -> task_event ids' e.
Proof. intros Hsub. destruct e; cbn; auto. Qed.

Lemma resume_events id c :
  Forall (task_event [id]) (resume id c).1.
Proof.
  induction c as [| e | a k IH | k IH |]; cbn.
  - repeat constructor.
  - repeat constructor.
  - destruct (resume id k) as [t s]. constructor; [constructor | exact IH].
  - constructor.
  - constructor.
Qed.

Lemma resume_ended id c :
  (resume id c).2 = Ended -> exists r, Completed id r ∈ (resume id c).1.
Proof.
  induction c as [| e | a k IH | k IH |]; cbn; intros H; try discriminate.
  - exists Returned. by apply list_elem_of_singleton.
  - exists (Raised e). by apply list_elem_of_singleton.
  - destruct (resume id k) as [t s]. cbn in *.
    destruct (IH H) as [r Hr]. exists r. by right.
Qed.

Lemma resume_halts id c :
  match (resume id c).2 with
  | Suspended k => turns k < turns c /\ (halts c <-> halts k)
  | Ended => halts c
  | Blocked => ¬ halts c
  end.
Proof.
  induction c as [| e | a k IH | k IH |]; cbn; auto.
  destruct (resume id k) as [t s]. exact IH.
Qed.

Lemma turns_pos c : 0 < turns c.
Proof. induction c; cbn; lia. Qed.

Lemma total_turns_app q q' :
  total_turns (q ++ q') = total_turns q + total_turns q'.
Proof.
  unfold total_turns. induction q as [|x q IH]; cbn; [done|].
  rewrite IH. lia.
Qed.

(** Whatever the queue does is done by its tasks. *)
Lemma run_ready_events fuel ready :
  Forall (task_event ready.*1) (run_ready fuel ready).1.
Proof.
  revert ready. induction fuel as [|fuel IH]; intros ready; cbn; [constructor|].
  destruct ready as [|[id c] q]; cbn; [constructor|].
  pose proof (resume_events id c) as Hres.
  destruct (resume id c) as [t s]. cbn in Hres.
  assert (Hhead : Forall (task_event (id :: q.*1)) t).
  { eapply Forall_impl; [exact Hres|]. intros e.
    apply task_event_mono. intros x Hx.
    apply list_elem_of_singleton in Hx as ->. by left. }
  destruct s as [k| |].
  - specialize (IH (q ++ [(id, k)])).
    destruct (run_ready fuel (q ++ [(id, k)])) as [t' b]. cbn in *.
    apply Forall_app. split; [done|].
    eapply Forall_impl; [exact IH|]. intros e.
    apply task_event_mono. rewrite fmap_app. intros x Hx.
    by apply ids_rotate.
  - specialize (IH q). destruct (run_ready fuel q) as [t' b]. cbn in *.
    apply Forall_app. split; [done|].
    eapply Forall_impl; [exact IH|]. intros e.
    apply task_event_mono. intros x Hx. by right.
  - specialize (IH q). destruct (run_ready fuel q) as [t' b]. cbn in *.
    apply Forall_app. split; [done|].
    eapply Forall_impl; [exact IH|]. intros e.
    apply task_event_mono. intros x Hx. by right.
Qed.

(** When the queue drains with no task left blocked, every task of the
    group has finished. *)
Lemma run_ready_all_completed fuel ready :
  (run_ready fuel ready).2 = [] ->
  forall id, id ∈ ready.*1 ->
             exists r, Completed id r ∈ (run_ready fuel ready).1.
Proof.
  revert ready. induction fuel as [|fuel IH]; intros ready; cbn.
  - intros -> id Hid. by apply elem_of_nil in Hid.
  - destruct ready as [|[id c] q]; cbn.
    { intros _ id Hid. by apply elem_of_nil in Hid. }
    pose proof (resume_ended id c) as Hend.
    destruct (resume id c) as [t s]. cbn in Hend.
    destruct s as [k| |].
    + specialize (IH (q ++ [(id, k)])).
      destruct (run_ready fuel (q ++ [(id, k)])) as [t' b]. cbn in *.
      intros -> id' Hid'.
      destruct (IH eq_refl id') as [r Hr].
      { rewrite fmap_app. by apply ids_rotate. }
      exists r. apply elem_of_app. by right.
    + specialize (IH q). destruct (run_ready fuel q) as [t' b]. cbn in *.
      intros -> id' Hid'.
      apply elem_of_cons in Hid' as [->|Hid'].
      * destruct (Hend eq_refl) as [r Hr]. exists r.
        apply elem_of_app. by left.
      * destruct (IH eq_refl id' Hid') as [r Hr]. exists r.
        apply elem_of_app. by right.
    + destruct (run_ready fuel q) as [t' b]. cbn. discriminate.
Qed.

(** With the turns the tasks can take as fuel, the queue drains exactly
    when every task of the group halts. *)
Lemma run_ready_drains fuel ready :
  total_turns ready <= fuel ->
  (run_ready fuel ready).2 = [] <-> Forall (fun t => halts t.2) ready.
Proof.
  revert ready. induction fuel as [|fuel IH]; intros ready Hfuel; cbn.
  - destruct ready as [|[id c] q]; [done|].
    unfold total_turns in Hfuel. cbn in Hfuel.
    pose proof (turns_pos c). lia.
  - destruct ready as [|[id c] q]; cbn; [done|].
    unfold total_turns in Hfuel. cbn in Hfuel.
    fold (total_turns q) in Hfuel.
    pose proof (resume_halts id c) as Hres.
    pose proof (turns_pos c) as Hpos.
    destruct (resume id c) as [t s]. cbn in Hres.
    rewrite Forall_cons. cbn.
    destruct s as [k| |].
    + destruct Hres as [Hlt Hiff].
      specialize (IH (q ++ [(id, k)])).
      rewrite total_turns_app in IH. unfold total_turns at 2 in IH.
      cbn in IH.
      destruct (run_ready fuel (q ++ [(id, k)])) as [t' b]. cbn in *.
      rewrite IH by lia. rewrite Forall_app, Forall_singleton. cbn.
      tauto.
    + specialize (IH q).
      destruct (run_ready fuel q) as [t' b]. cbn in *.
      rewrite IH by lia. tauto.
    + destruct (run_ready fuel q) as [t' b]. cbn. split; [done|tauto].
Qed.

(** ** Tasks in flight *)

Lemma in_flight_app p t1 t2 :
  in_flight p (t1 ++ t2) = in_flight (in_flight p t1) t2.
Proof.
  revert p. induction t1 as [|e t1 IH]; intros p; [done|].
  destruct e; cbn; apply IH.
Qed.

Lemma serialized_app p t1 t2 :
  serialized p (t1 ++ t2) <->
  serialized p t1 /\ serialized (in_flight p t1) t2.
Proof.
  revert p. induction t1 as [|e t1 IH]; intros p; cbn; [tauto|].
  destruct e; cbn; rewrite IH; tauto.
Qed.

Lemma serialized_tasks ids p t :
  Forall (task_event ids) t -> serialized p t.
Proof.
  intros H. revert p. induction H as [|e t He _ IH]; intros p; cbn; [done|].
  split; [by destruct e|apply IH].
Qed.

Lemma in_flight_tasks ids p t id :
  Forall (task_event ids) t ->
  id ∈ in_flight p t -> id ∈ p /\ forall r, Completed id r ∉ t.
Proof.
  intros H. revert p.
  induction H as [|e t He _ IH]; intros p Hid; cbn in *.
  - split; [done|]. intros r Hr. by apply elem_of_nil in Hr.
  - destruct e; cbn in He; try done.
    + destruct (IH _ Hid) as [Hp Hno]. split; [done|].
      intros r Hr. apply elem_of_cons in Hr as [Hr|Hr]; [done|].
      by apply (Hno r).
    + destruct (IH _ Hid) as [Hp Hno].
      apply elem_of_difference in Hp as [Hp Hne].
      split; [done|].
      intros r' Hr. apply elem_of_cons in Hr as [Hr|Hr].
      * injection Hr as -> _. apply Hne. by apply elem_of_singleton.
      * by apply (Hno r').
Qed.

Lemma in_flight_launched p ids :
  in_flight p (Launched <$> ids) = p ∪ list_to_set ids.
Proof.
  revert p. induction ids as [|id ids IH]; intros p; cbn.
  - by rewrite union_empty_r_L.
  - rewrite IH. by rewrite <- (assoc_L (∪)).
Qed.

Lemma serialized_launched p ids : serialized p (Launched <$> ids).
Proof.
  revert p. induction ids as [|id ids IH]; intros p; cbn; [done|].
  split; [done|apply IH].
Qed.

(** A group that was launched and has run until every one of its tasks
    finished leaves nothing in flight. *)
Lemma in_flight_group ids t :
  Forall (task_event ids) t ->
  (forall id, id ∈ ids -> exists r, Completed id r ∈ t) ->
  in_flight ∅ ((Launched <$> ids) ++ t) = ∅.
Proof.
  intros Ht Hall. rewrite in_flight_app, in_flight_launched.
  apply set_eq. intros id. split; [|by intros ?%not_elem_of_empty].
  intros Hid. destruct (in_flight_tasks _ _ _ _ Ht Hid) as [Hin Hno].
  apply elem_of_union in Hin as [Hin|Hin]; [done|].
  apply elem_of_list_to_set in Hin.
  destruct (Hall id Hin) as [r Hr]. by destruct (Hno r).
Qed.

(** ** Dispatch *)

Lemma tasks_for_ids s kw : (tasks_for s kw).*1 = (map_to_list s).*1.
Proof.
  unfold tasks_for. rewrite <- list_fmap_compose.
  apply list_fmap_ext. by intros i [id f] _.
Qed.

Lemma tasks_for_nil s kw : tasks_for s kw = [] -> s = ∅.
Proof.
  unfold tasks_for. intros H. apply fmap_nil_inv in H.
  by apply map_to_list_empty_iff.
Qed.

Lemma elem_of_tasks_for_ids s kw id :
  id ∈ (tasks_for s kw).*1 <-> is_Some (s !! id).
Proof.
  rewrite tasks_for_ids, list_elem_of_fmap. split.
  - intros [[id' f] [-> H]]. apply elem_of_map_to_list in H. by exists f.
  - intros [f Hf]. exists (id, f). split; [done|].
    by apply elem_of_map_to_list.
Qed.

Lemma elem_of_tasks_for s kw id c :
  (id, c) ∈ tasks_for s kw <-> exists f, s !! id = Some f /\ c = f kw.
Proof.
  unfold tasks_for. rewrite list_elem_of_fmap. split.
  - intros [[id' f] [Heq H]]. injection Heq as -> ->.
    apply elem_of_map_to_list in H. by exists f.
  - intros [f [Hf ->]]. exists (id, f). split; [done|].
    by apply elem_of_map_to_list.
Qed.

Section Dispatch.

Variable unique_command : string -> option string.

Lemma call_unknown command kw w :
  get_command unique_command command = None ->
  call unique_command command kw w = Exn (UnknownCommand (upper command)) w.
Proof. intros H. unfold call. by rewrite H. Qed.

Lemma call_empty command kw w c :
  get_command unique_command command = Some c ->
  handlers_of (coros (handle w)) c = ∅ ->
  call unique_command command kw w = Ok tt (emit [Resumed] (entered c kw w)).
Proof.
  intros Hc Hs. unfold call. rewrite Hc.
  rewrite (getitem_surjective (coros (handle w)) c), Hs.
  by rewrite bool_decide_true.
Qed.

Lemma call_group command kw w c :
  get_command unique_command command = Some c ->
  handlers_of (coros (handle w)) c ≠ ∅ ->
  let tasks := tasks_for (handlers_of (coros (handle w)) c) kw in
  let run := run_ready (total_turns tasks) tasks in
  let w' := emit run.1 (emit (Launched <$> tasks.*1) (entered c kw w)) in
  call unique_command command kw w =
    match run.2 with
    | [] => Ok tt (emit [Resumed] w')
    | _ :: _ => Hang w'
    end.
Proof.
  intros Hc Hs. cbn zeta. unfold call. rewrite Hc.
  rewrite (getitem_surjective (coros (handle w)) c).
  rewrite bool_decide_false by done.
  unfold asyncio_wait.
  destruct (tasks_for _ kw) as [|task tasks] eqn:Htasks.
  { by apply tasks_for_nil in Htasks. }
  destruct (run_ready _ _) as [t b]. by destruct b.
Qed.

(** Dispatch touches neither the connection nor the allocator, and the
    set every command maps to is what it was. *)
Lemma call_frame command kw w :
  let w' := final (call unique_command command kw w) in
  conn w' = conn w /\ attempts w' = attempts w /\
  allocated (handle w') = allocated (handle w) /\
  forall k, handlers_of (coros (handle w')) k
            = handlers_of (coros (handle w)) k.
Proof.
  cbn zeta. destruct (get_command unique_command command) as [c|] eqn:Hc.
  - destruct (decide (handlers_of (coros (handle w)) c = ∅)) as [Hs|Hs].
    + rewrite (call_empty _ _ _ _ Hc Hs). cbn.
      split_and!; [done..|]. intros k. apply handlers_of_getitem.
    + rewrite (call_group _ _ _ _ Hc Hs).
      destruct (run_ready _ _) as [t [|id b]]; cbn;
        (split_and!; [done..|]; intros k; apply handlers_of_getitem).
  - by rewrite call_unknown.
Qed.

(** The dictionary itself: the lookup of the dispatch is what changes
    it, if anything does. *)
Lemma call_coros command kw w c :
  get_command unique_command command = Some c ->
  coros (handle (final (call unique_command command kw w)))
    = (getitem (coros (handle w)) c).2.
Proof.
  intros Hc.
  destruct (decide (handlers_of (coros (handle w)) c = ∅)) as [Hs|Hs].
  - by rewrite (call_empty _ _ _ _ Hc Hs).
  - rewrite (call_group _ _ _ _ Hc Hs).
    by destruct (run_ready _ _) as [t [|id b]].
Qed.

(** What a dispatch that returns has added to the trace. *)
Lemma call_returns command kw w a w' :
  call unique_command command kw w = Ok a w' ->
  exists c t,
    get_command unique_command command = Some c /\
    let ids := (tasks_for (handlers_of (coros (handle w)) c) kw).*1 in
    trace w' = trace w ++ [Dispatched c kw] ++ (Launched <$> ids) ++ t
                       ++ [Resumed] /\
    Forall (task_event ids) t /\
    (forall id, id ∈ ids -> exists r, Completed id r ∈ t).
Proof.
  intros Hcall.
  destruct (get_command unique_command command) as [c|] eqn:Hc;
    [|by rewrite call_unknown in Hcall].
  exists c.
  destruct (decide (handlers_of (coros (handle w)) c = ∅)) as [Hs|Hs].
  - rewrite (call_empty _ _ _ _ Hc Hs) in Hcall. injection Hcall as _ <-.
    exists []. rewrite Hs. cbn. split_and!; [done| |constructor|].
    + by rewrite <- (assoc_L (++)).
    + intros id Hid. by apply elem_of_nil in Hid.
  - rewrite (call_group _ _ _ _ Hc Hs) in Hcall.
    set (tasks := tasks_for _ kw) in *.
    pose proof (run_ready_events (total_turns tasks) tasks) as Hev.
    pose proof (run_ready_all_completed (total_turns tasks) tasks) as Hall.
    destruct (run_ready _ _) as [t [|id b]]; [|done].
    injection Hcall as _ <-. exists t. cbn.
    split_and!; [done| |done|by apply Hall].
    by rewrite <- !(assoc_L (++)).
Qed.

(** A dispatch returns exactly when every handler of the group halts
    on the field mapping; if one does not, the dispatch stalls. *)
Lemma call_returns_iff command kw w c :
  get_command unique_command command = Some c ->
  (exists w', call unique_command command kw w = Ok tt w') <->
  (forall id f, handlers_of (coros (handle w)) c !! id = Some f ->
                halts (f kw)).
Proof.
  intros Hc.
  destruct (decide (handlers_of (coros (handle w)) c = ∅)) as [Hs|Hs].
  - rewrite (call_empty _ _ _ _ Hc Hs), Hs. split; [|by eauto].
    intros _ id f Hf. by rewrite lookup_empty in Hf.
  - rewrite (call_group _ _ _ _ Hc Hs).
    set (tasks := tasks_for _ kw) in *.
    pose proof (run_ready_drains (total_turns tasks) tasks (le_n _)) as Hd.
    rewrite Forall_forall in Hd.
    assert (Hiff : (forall t, t ∈ tasks -> halts t.2) <->
                   (forall id f,
                      handlers_of (coros (handle w)) c !! id = Some f ->
                      halts (f kw))).
    { split.
      - intros H id f Hf. apply (H (id, f kw)).
        apply elem_of_tasks_for. by exists f.
      - intros H [id k] Hin. apply elem_of_tasks_for in Hin as [f [Hf ->]].
        by apply (H id f). }
    rewrite <- Hiff, <- Hd.
    destruct (run_ready _ _) as [t [|id b]]; cbn.
    + split; [done|by eauto].
    + split; [by intros [w' ?]|done].
Qed.

End Dispatch.

(** ** One group at a time *)

Lemma quiet_dispatch tr c kw ids t :
  serialized ∅ tr -> in_flight ∅ tr = ∅ ->
  Forall (task_event ids) t ->
  serialized ∅ (tr ++ [Dispatched c kw] ++ (Launched <$> ids) ++ t) /\
  ((forall id, id ∈ ids -> exists r, Completed id r ∈ t) ->
   serialized ∅ (tr ++ [Dispatched c kw] ++ (Launched <$> ids) ++ t
                    ++ [Resumed]) /\
   in_flight ∅ (tr ++ [Dispatched c kw] ++ (Launched <$> ids) ++ t
                   ++ [Resumed]) = ∅).
Proof.
  intros Hser Hfl Ht.
  assert (Hbody : forall p, serialized p ((Launched <$> ids) ++ t)).
  { intros p. apply serialized_app. split; [apply serialized_launched|].
    by apply (serialized_tasks ids). }
  split.
  - apply serialized_app. split; [done|]. rewrite Hfl. cbn.
    split; [done|apply Hbody].
  - intros Hall.
    pose proof (in_flight_group ids t Ht Hall) as Hgroup.
    rewrite !(assoc_L (++) (Launched <$> ids)).
    split.
    + apply serialized_app. split; [done|]. rewrite Hfl. cbn.
      split; [done|]. apply serialized_app. split; [apply Hbody|].
      rewrite Hgroup. by cbn.
    + rewrite in_flight_app, Hfl. cbn. by rewrite in_flight_app, Hgroup.
Qed.

Lemma quiet_emit t w :
  Forall (fun e => match e with
                   | Opened _ _ | Refused _ _ | Closed _ => True
                   | _ => False
                   end) t ->
  quiet w -> quiet (emit t w).
Proof.
  intros Ht [Hser Hfl]. unfold quiet. cbn.
  rewrite in_flight_app, Hfl. rewrite serialized_app, Hfl.
  clear Hfl. revert Hser. generalize (trace w). intros tr Hser.
  assert (serialized ∅ t /\ in_flight ∅ t = ∅) as [H1 H2]; [|done].
  induction Ht as [|e t He _ IH]; cbn; [done|].
  destruct e; try done; cbn; tauto.
Qed.

Lemma orderly_ret {A} (a : A) : orderly (ret a).
Proof.
  intros w Hq. split; [apply Hq|]. by intros a' w' [= _ <-].
Qed.

Lemma orderly_bind {A B} (m : M A) (f : A -> M B) :
  orderly m -> (forall a, orderly (f a)) -> orderly (bind m f).
Proof.
  intros Hm Hf w Hq. destruct (Hm w Hq) as [Hser Hok]. unfold bind.
  destruct (m w) as [a w1|e w1|w1]; cbn in *; [|by split..].
  by apply Hf, (Hok a).
Qed.

Lemma orderly_call unique_command command kw :
  orderly (call unique_command command kw).
Proof.
  intros w [Hser Hfl].
  destruct (get_command unique_command command) as [c|] eqn:Hc;
    [|by rewrite call_unknown].
  destruct (decide (handlers_of (coros (handle w)) c = ∅)) as [Hs|Hs].
  - rewrite (call_empty _ _ _ _ _ Hc Hs).
    destruct (quiet_dispatch (trace w) c kw [] [] Hser Hfl (Forall_nil_2 _))
      as [_ Hret].
    destruct Hret as [H1 H2].
    { intros id Hid. by apply elem_of_nil in Hid. }
    cbn in *. rewrite <- (assoc_L (++)).
    split; [done|]. intros a w' [= _ <-]. split; cbn;
      by rewrite <- (assoc_L (++)).
  - rewrite (call_group _ _ _ _ _ Hc Hs).
    set (tasks := tasks_for _ kw) in *.
    pose proof (run_ready_events (total_turns tasks) tasks) as Hev.
    pose proof (run_ready_all_completed (total_turns tasks) tasks) as Hall.
    destruct (quiet_dispatch (trace w) c kw tasks.*1 _ Hser Hfl Hev)
      as [Hrun Hret].
    destruct (run_ready _ _) as [t [|id b]]; cbn in *.
    + destruct (Hret (Hall eq_refl)) as [H1 H2].
      rewrite <- !(assoc_L (++)).
      split; [done|]. intros a w' [= _ <-]. split; cbn;
        by rewrite <- !(assoc_L (++)).
    + rewrite <- !(assoc_L (++)). by split.
Qed.

(** ** The connection *)

Lemma lifecycle_fields_released c :
  lifecycle_fields (released c) = lifecycle_fields c.
Proof. done. Qed.

Section ConnectionFacts.

Variable unique_command : string -> option string.
Variable parse : string -> option parsed.
Variable unpack : parsed -> string * kwargs.
Variable server : nat -> option (list string).

Lemma disconnect_unfold w :
  disconnect unique_command w =
    call unique_command "CLIENT_DISCONNECT" (lifecycle_fields (conn w))
      (set_conn (released (conn w)) (emit (closing (conn w)) w)).
Proof.
  unfold disconnect, closing, released.
  destruct w as [[h p [r|] [wr|]] hd n tr]; cbn; try done;
    unfold emit, set_conn; cbn; by rewrite app_nil_r.
Qed.

Lemma connect_refused w :
  server (attempts w) = None ->
  connect unique_command server w =
    Exn ConnectionError
      (emit [Refused (host (conn w)) (port (conn w))]
         {| conn := conn w; handle := handle w;
            attempts := S (attempts w); trace := trace w |}).
Proof. intros H. unfold connect. by rewrite H. Qed.

Lemma connect_opened w lines :
  server (attempts w) = Some lines ->
  connect unique_command server w =
    call unique_command "CLIENT_CONNECT" (lifecycle_fields (conn w))
      (emit [Opened (host (conn w)) (port (conn w))]
         {| conn := {| host := host (conn w); port := port (conn w);
                       reader := Some lines;
                       writer := Some (attempts w) |};
            handle := handle w;
            attempts := S (attempts w); trace := trace w |}).
Proof. intros H. unfold connect. by rewrite H. Qed.

Lemma read_frame w :
  let w' := final (read w) in
  host (conn w') = host (conn w) /\ port (conn w') = port (conn w) /\
  writer (conn w') = writer (conn w) /\ handle w' = handle w /\
  attempts w' = attempts w /\ trace w' = trace w.
Proof.
  unfold read. destruct (reader (conn w)) as [[|l ls]|]; by cbn.
Qed.

Lemma orderly_disconnect : orderly (disconnect unique_command).
Proof.
  intros w Hq. rewrite disconnect_unfold. apply orderly_call.
  apply (quiet_emit (closing (conn w)) w); [|done].
  unfold closing. destruct (writer (conn w)); repeat constructor.
Qed.

Lemma orderly_connect : orderly (connect unique_command server).
Proof.
  intros w Hq. destruct (server (attempts w)) as [lines|] eqn:Hs.
  - rewrite (connect_opened _ _ Hs). apply orderly_call.
    apply (quiet_emit [Opened _ _]); [repeat constructor|done].
  - rewrite (connect_refused _ Hs). split; [|done].
    apply (quiet_emit [Refused _ _]); [repeat constructor|done].
Qed.

Lemma orderly_reconnect : orderly (reconnect unique_command server).
Proof.
  apply orderly_bind; [apply orderly_disconnect|].
  intros _. apply orderly_connect.
Qed.

Lemma orderly_read : orderly read.
Proof.
  intros w Hq. destruct (read_frame w) as (_ & _ & _ & _ & _ & Htr).
  split; [rewrite Htr; apply Hq|].
  intros a w' Hr. rewrite Hr in Htr. cbn in Htr.
  unfold quiet. rewrite Htr. apply Hq.
Qed.

Lemma orderly_loop_body :
  orderly (loop_body unique_command parse unpack server).
Proof.
  apply orderly_bind; [apply orderly_read|]. intros msg.
  case_bool_decide; [|apply orderly_reconnect].
  destruct (parse msg) as [args|]; [|apply orderly_ret].
  destruct (unpack args) as [command kw]. apply orderly_call.
Qed.

Lemma orderly_iterate n (m : M unit) : orderly m -> orderly (iterate n m).
Proof.
  intros Hm. induction n as [|n IH]; cbn; [apply orderly_ret|].
  apply orderly_bind; [done|]. by intros _.
Qed.

Lemma orderly_loop n : orderly (loop unique_command parse unpack server n).
Proof.
  apply orderly_bind; [apply orderly_connect|]. intros _.
  apply orderly_iterate, orderly_loop_body.
Qed.

End ConnectionFacts.

(** ** How a task ends *)

Lemma resume_ending id c :
  match (resume id c).2 with
  | Suspended k => ending c = ending k
  | Ended => exists r, ending c = Some r /\ Completed id r ∈ (resume id c).1
  | Blocked => ending c = None
  end.
Proof.
  induction c as [| e | a k IH | k IH |]; cbn; auto.
  - exists Returned. split; [done|]. by apply list_elem_of_singleton.
  - exists (Raised e). split; [done|]. by apply list_elem_of_singleton.
  - destruct (resume id k) as [t s]. cbn in *. destruct s; [done| |done].
    destruct IH as [r [Hr Hin]]. exists r. split; [done|]. by right.
Qed.

(** When the queue drains, each task has finished the way its body
    ends. *)
Lemma run_ready_outcomes fuel ready :
  (run_ready fuel ready).2 = [] ->
  forall id c, (id, c) ∈ ready ->
    exists r, ending c = Some r /\ Completed id r ∈ (run_ready fuel ready).1.
Proof.
  revert ready. induction fuel as [|fuel IH]; intros ready; cbn.
  - intros Hb id c Hin. apply fmap_nil_inv in Hb. subst ready.
    by apply elem_of_nil in Hin.
  - destruct ready as [|[id c] q]; cbn.
    { intros _ id c Hin. by apply elem_of_nil in Hin. }
    pose proof (resume_ending id c) as Hend.
    destruct (resume id c) as [t s]. cbn in Hend.
    destruct s as [k| |].
    + specialize (IH (q ++ [(id, k)])).
      destruct (run_ready fuel (q ++ [(id, k)])) as [t' b]. cbn in *.
      intros -> id' c' Hin.
      apply elem_of_cons in Hin as [[= -> ->]|Hin].
      * destruct (IH eq_refl id k) as [r [Hr Hc]].
        { apply elem_of_app. right. by apply list_elem_of_singleton. }
        exists r. split; [congruence|]. apply elem_of_app. by right.
      * destruct (IH eq_refl id' c') as [r [Hr Hc]].
        { apply elem_of_app. by left. }
        exists r. split; [done|]. apply elem_of_app. by right.
    + specialize (IH q). destruct (run_ready fuel q) as [t' b]. cbn in *.
      intros -> id' c' Hin.
      apply elem_of_cons in Hin as [[= -> ->]|Hin].
      * destruct Hend as [r [Hr Hc]]. exists r. split; [done|].
        apply elem_of_app. by left.
      * destruct (IH eq_refl id' c' Hin) as [r [Hr Hc]].
        exists r. split; [done|]. apply elem_of_app. by right.
    + destruct (run_ready fuel q) as [t' b]. cbn. discriminate.
Qed.

Section DispatchOutcomes.

Variable unique_command : string -> option string.

(** A dispatch whose handlers all halt: what it returns and leaves. *)
Lemma call_halting command kw w c :
  get_command unique_command command = Some c ->
  (forall id f, handlers_of (coros (handle w)) c !! id = Some f ->
                halts (f kw)) ->
  exists w' t,
    call unique_command command kw w = Ok tt w' /\
    trace w' = trace w ++ [Dispatched c kw] ++ t ++ [Resumed] /\
    Forall group_event t /\
    (forall id f, handlers_of (coros (handle w)) c !! id = Some f ->
                  exists r, ending (f kw) = Some r /\ Completed id r ∈ t) /\
    conn w' = conn w /\ attempts w' = attempts w /\
    (forall k, handlers_of (coros (handle w')) k
               = handlers_of (coros (handle w)) k).
Proof.
  intros Hc Hhalt.
  destruct (proj2 (call_returns_iff _ command kw w c Hc) Hhalt) as [w' Hw'].
  pose proof (call_frame unique_command command kw w) as Hframe.
  rewrite Hw' in Hframe. cbn in Hframe.
  destruct Hframe as (Hconn & Hatt & _ & Hsets).
  destruct (decide (handlers_of (coros (handle w)) c = ∅)) as [Hs|Hs].
  - rewrite (call_empty _ _ _ _ _ Hc Hs) in Hw'. injection Hw' as <-.
    exists (emit [Resumed] (entered c kw w)), [].
    rewrite (call_empty _ _ _ _ _ Hc Hs).
    split_and!; [done| |constructor| |done..].
    + cbn. by rewrite <- (assoc_L (++)).
    + intros id f Hf. rewrite Hs in Hf. by rewrite lookup_empty in Hf.
  - rewrite (call_group _ _ _ _ _ Hc Hs) in Hw'.
    rewrite (call_group _ _ _ _ _ Hc Hs).
    set (tasks := tasks_for _ kw) in *.
    pose proof (run_ready_events (total_turns tasks) tasks) as Hev.
    pose proof (run_ready_outcomes (total_turns tasks) tasks) as Hout.
    destruct (run_ready _ _) as [t [|id b]]; [|done].
    injection Hw' as <-. cbn in *.
    eexists _, ((Launched <$> tasks.*1) ++ t).
    split_and!; [done| | | |done..].
    + cbn. by rewrite <- !(assoc_L (++)).
    + apply Forall_app. split.
      * apply Forall_fmap, Forall_true. by intros ?.
      * eapply Forall_impl; [exact Hev|]. by intros [].
    + intros id f Hf. destruct (Hout eq_refl id (f kw)) as [r [Hr Hin]].
      { apply elem_of_tasks_for. by exists f. }
      exists r. split; [done|]. apply elem_of_app. by right.
Qed.

(** Whatever its outcome, a dispatch of a command that normalises does
    not raise, and adds to the trace its entry and events of its
    group. *)
Lemma call_dispatches command kw w c :
  get_command unique_command command = Some c ->
  (forall e w', call unique_command command kw w ≠ Exn e w') /\
  exists rest,
    trace (final (call unique_command command kw w))
      = trace w ++ [Dispatched c kw] ++ rest /\
    Forall (fun e => group_event e \/ e = Resumed) rest.
Proof.
  intros Hc.
  destruct (decide (handlers_of (coros (handle w)) c = ∅)) as [Hs|Hs].
  - rewrite (call_empty _ _ _ _ _ Hc Hs). split; [done|].
    exists [Resumed]. cbn. rewrite <- (assoc_L (++)).
    split; [done|]. apply Forall_singleton. by right.
  - rewrite (call_group _ _ _ _ _ Hc Hs).
    set (tasks := tasks_for _ kw) in *.
    pose proof (run_ready_events (total_turns tasks) tasks) as Hev.
    assert (Hgroup : Forall (fun e => group_event e \/ e = Resumed)
                       ((Launched <$> tasks.*1)
                          ++ (run_ready (total_turns tasks) tasks).1)).
    { apply Forall_app. split.
      - apply Forall_fmap, Forall_true. intros ?. by left.
      - eapply Forall_impl; [exact Hev|]. intros [] He; try done; by left. }
    destruct (run_ready _ _) as [t [|id b]]; cbn in *.
    + split; [done|]. exists ((Launched <$> tasks.*1) ++ t ++ [Resumed]).
      rewrite <- !(assoc_L (++)). split; [done|].
      rewrite (assoc_L (++)). apply Forall_app. split; [done|].
      apply Forall_singleton. by right.
    + split; [done|]. exists ((Launched <$> tasks.*1) ++ t).
      rewrite <- !(assoc_L (++)). by split.
Qed.

End DispatchOutcomes.

(** ** The instance satisfies the assumptions *)

Lemma Sample_table_canonical : canonical_table Sample.unique_command.
Proof.
  assert (Hall : map_Forall
            (fun _ c => upper c = c /\
                        (c ∉ LOCAL_COMMANDS ->
                         Sample.unique_command c = Some c))
            Sample.table).
  { unfold Sample.table. cbn [list_to_map foldr fst snd].
    repeat (apply map_Forall_insert_2;
            [split; [reflexivity | intros _; by vm_compute]|]).
    apply map_Forall_empty. }
  intros t c Hc. exact (Hall _ _ Hc).
Qed.

Lemma Sample_strip :
  blank (Sample.nbsp +:+ " " +:+ Sample.emsp) = true /\
  strip (Sample.nbsp +:+ "PING x" +:+ Sample.emsp) = "PING x" /\
  strip (" " +:+ Sample.agrave +:+ Sample.nbsp) = Sample.agrave /\
  blank Sample.agrave = false.
Proof. by vm_compute. Qed.

Lemma Sample_table_ascii :
  forall t c, Sample.unique_command t = Some c -> isascii c = true.
Proof.
  intros t c Hc. unfold Sample.unique_command in Hc.
  assert (H : map_Forall (fun _ c => isascii c = true) Sample.table).
  { unfold Sample.table.
    repeat (apply map_Forall_insert_2; [reflexivity|]).
    apply map_Forall_empty. }
  exact (H t c Hc).
Qed.

Lemma Sample_lifecycle_handlers_halt (h : Handler) (kw : kwargs) :
  map_Forall (fun _ s => map_Forall (fun _ (f : invoker) => halts (f kw)) s)
             (coros h) ->
  forall c id f, handlers_of (coros h) c !! id = Some f -> halts (f kw).
Proof.
  intros Hall c id f. unfold handlers_of, getitem.
  destruct (coros h !! c) as [s|] eqn:Hs; cbn.
  - intros Hf. exact (Hall _ _ Hs _ _ Hf).
  - by rewrite lookup_empty.
Qed.

(** A whole run: the sample server is read to the end of its two
    streams, each PING is answered, each connection greeted, and the third
    attempt to connect is refused, which ends the loop. *)
Lemma Sample_run :
  let h := Sample.registered [("client_connect", Sample.greet);
                              ("ping", Sample.pong);
                              ("client_disconnect", Sample.faulty)] in
  let w := set_handle h (Client_init "irc.example.org" 6697) in
  let r := loop Sample.unique_command Sample.parse Sample.unpack
                Sample.server 6 w in
  r = Exn ConnectionError (final r) /\
  (effects (trace (final r))).*2 =
    ["send NICK"; "send JOIN"; "send PONG";
     "send NICK"; "send JOIN"; "send PONG"] /\
  bool_decide (serialized ∅ (trace (final r))) = true /\
  conn (final r) = released (conn w).
Proof. cbn zeta. split_and!; by vm_compute. Qed.

Ltac map_Forall_compute :=
  apply map_Forall_to_list;
  match goal with
  | |- Forall ?P (map_to_list ?m) =>
      let l := eval vm_compute in (map_to_list m) in
      change (Forall P l)
  end.

Ltac handlers_halt :=
  apply Sample_lifecycle_handlers_halt;
  map_Forall_compute; repeat (constructor; cbn);
  map_Forall_compute; repeat (constructor; cbn).

(** * Main results *)

(** C1. Dispatch is a barrier.  A dispatch that returns has launched a
    task for every handler registered for the command and seen each of
    them finish, by returning or by raising, before it returned; it
    returns exactly when all of them halt (one that never finishes keeps
    the caller suspended); and in every run of the read loop no dispatch
    begins or returns while a task of a group is still in flight, so the
    groups of successive events never overlap. *)
Theorem dispatch_is_a_barrier (unique_command : string -> option string) :
  (forall command kw w a w',
     call unique_command command kw w = Ok a w' ->
     exists c t,
       get_command unique_command command = Some c /\
       let ids := (tasks_for (handlers_of (coros (handle w)) c) kw).*1 in
       trace w' = trace w ++ [Dispatched c kw] ++ (Launched <$> ids) ++ t
                          ++ [Resumed] /\
       Forall (task_event ids) t /\
       (forall id, is_Some (handlers_of (coros (handle w)) c !! id) ->
                   id ∈ ids /\ exists r, Completed id r ∈ t)) /\
  (forall command kw w c,
     get_command unique_command command = Some c ->
     (exists w', call unique_command command kw w = Ok tt w') <->
     (forall id f, handlers_of (coros (handle w)) c !! id = Some f ->
                   halts (f kw))) /\
  (forall parse unpack server n w,
     quiet w ->
     serialized ∅
       (trace (final (loop unique_command parse unpack server n w)))).
Proof.
  split_and!.
  - intros command kw w a w' Hcall.
    destruct (call_returns _ _ _ _ _ _ Hcall) as (c & t & Hc & Htr & Ht & Hall).
    exists c, t. cbn zeta in *. repeat (split; [done|]).
    intros id Hid. apply (elem_of_tasks_for_ids _ kw) in Hid. auto.
  - intros command kw w c Hc. by apply call_returns_iff.
  - intros parse unpack server n w Hq.
    by apply (orderly_loop unique_command parse unpack server n w).
Qed.

(** C1, at the example: two handlers of CLIENT_CONNECT, one of which
    raises; the dispatch returns after both tasks have completed.  With
    a handler that never finishes the dispatch does not return. *)
Lemma dispatch_is_a_barrier_witness :
  let h := Sample.registered [("client_connect", Sample.greet);
                               ("client_connect", Sample.faulty)] in
  let w := set_handle h (Client_init "irc.example.org" 6697) in
  let kw := lifecycle_fields (conn w) in
  let stalled := set_handle (Sample.registered
                               [("client_connect", Sample.stuck)]) w in
  (exists w' t,
     call Sample.unique_command "client_connect" kw w = Ok tt w' /\
     trace w' = [Dispatched "CLIENT_CONNECT" kw] ++
                (Launched <$> (tasks_for (handlers_of (coros h) "CLIENT_CONNECT")
                                         kw).*1) ++ t ++ [Resumed] /\
     (exists r, Completed 1 r ∈ t) /\ (exists r, Completed 2 r ∈ t)) /\
  ¬ (exists w',
       call Sample.unique_command "client_connect" kw stalled = Ok tt w').
Proof.
  cbn zeta.
  set (h := Sample.registered [_; _]).
  set (w := set_handle h _).
  set (kw := lifecycle_fields (conn w)).
  split.
  - assert (Hcall : call Sample.unique_command "client_connect" kw w
                    = Ok tt (final (call Sample.unique_command
                                         "client_connect" kw w)))
      by (by vm_compute).
    destruct (proj1 (dispatch_is_a_barrier Sample.unique_command)
                "client_connect" kw w tt _ Hcall)
      as (c & t & Hc & Htr & _ & Hall).
    assert (c = "CLIENT_CONNECT") as -> by (vm_compute in Hc; congruence).
    eexists _, t. split; [exact Hcall|]. split; [exact Htr|].
    split.
    + apply (Hall 1%positive). apply (bool_decide_unpack _). by vm_compute.
    + apply (Hall 2%positive). apply (bool_decide_unpack _). by vm_compute.
  - intros Hret.
    exact (proj1 (proj1 (proj2 (dispatch_is_a_barrier Sample.unique_command))
                        "client_connect" kw _ "CLIENT_CONNECT" eq_refl)
                 Hret 1%positive
                 (Sample.partial_bind "CLIENT_CONNECT" Sample.stuck)
                 eq_refl).
Defined.

(** C2, the counterexample: with a handler that raises registered next
    to one that sends, the dispatch of CLIENT_CONNECT returns normally to
    its caller although the task of the handler that raises has ended by
    raising; the other handler has done all its sends. *)
Lemma raising_handler_returns_normally :
  let h := Sample.registered [("client_connect", Sample.greet);
                               ("client_connect", Sample.faulty)] in
  let w := set_handle h (Client_init "irc.example.org" 6697) in
  let r := call Sample.unique_command "CLIENT_CONNECT"
                (lifecycle_fields (conn w)) w in
  r = Ok tt (final r) /\
  Completed 2 (Raised "boom") ∈ trace (final r) /\
  (effects (trace (final r))).*2 = ["send NICK"; "send JOIN"].
Proof.
  cbn zeta. split; [by vm_compute|]. split; [|by vm_compute].
  apply list_elem_of_In. vm_compute. tauto.
Qed.

(** C2, as the code has it.  When a handler of the group raises and the
    handlers of the group all halt, the dispatch still runs every sibling
    to its end, and then returns to its caller normally: the exception
    stays the outcome of the task that raised, the value the read loop is
    resumed with is the same as after a group without failure, and
    nothing is raised into the loop. *)
Theorem handler_failure_not_surfaced
  (unique_command : string -> option string)
  (command c : string) (kw : kwargs) (w : world)
  (id : objid) (f : invoker) (e : string)
  (Hcommand : get_command unique_command command = Some c)
  (Hhandler : handlers_of (coros (handle w)) c !! id = Some f)
  (Hraises : ending (f kw) = Some (Raised e))
  (Hhalt : forall id' f', handlers_of (coros (handle w)) c !! id' = Some f' ->
                          halts (f' kw)) :
  exists w' t,
    call unique_command command kw w = Ok tt w' /\
    trace w' = trace w ++ [Dispatched c kw] ++ t ++ [Resumed] /\
    Completed id (Raised e) ∈ t /\
    (forall id' f', handlers_of (coros (handle w)) c !! id' = Some f' ->
                    exists r, Completed id' r ∈ t) /\
    conn w' = conn w.
Proof.
  destruct (call_halting _ command kw w c Hcommand Hhalt)
    as (w' & t & Hcall & Htr & _ & Hout & Hconn & _).
  exists w', t. split_and!; [done..| | |done].
  - destruct (Hout id f Hhandler) as [r [Hr Hin]]. congruence.
  - intros id' f' Hf'. destruct (Hout id' f' Hf') as [r [_ Hin]]. eauto.
Qed.

(** C2, at the example: the handler that raises has identity 2. *)
Lemma handler_failure_not_surfaced_witness :
  let h := Sample.registered [("client_connect", Sample.greet);
                               ("client_connect", Sample.faulty)] in
  let w := set_handle h (Client_init "irc.example.org" 6697) in
  let kw := lifecycle_fields (conn w) in
  exists w' t,
    call Sample.unique_command "CLIENT_CONNECT" kw w = Ok tt w' /\
    trace w' = [Dispatched "CLIENT_CONNECT" kw] ++ t ++ [Resumed] /\
    Completed 2 (Raised "boom") ∈ t.
Proof.
  cbn zeta.
  set (h := Sample.registered _).
  set (w := set_handle h _).
  set (kw := lifecycle_fields (conn w)).
  destruct (handler_failure_not_surfaced Sample.unique_command
              "CLIENT_CONNECT" "CLIENT_CONNECT" kw w 2%positive
              (Sample.partial_bind "CLIENT_CONNECT" Sample.faulty) "boom")
    as (w' & t & Hcall & Htr & Hin & _).
  - reflexivity.
  - by vm_compute.
  - reflexivity.
  - subst w. cbn [handle set_handle]. subst kw h. handlers_halt.
  - by exists w', t.
Defined.




(** C4, on the code.  Registering the same handler for the same command
    twice leaves two bindings, one per call of Handler.add, because each
    call wraps the handler in a new function object; one CLIENT_CONNECT
    event then runs the handler twice. *)
Theorem register_twice_runs_twice :
  let h := Sample.registered [("client_connect", Sample.greet);
                               ("client_connect", Sample.greet)] in
  let w := set_handle h (Client_init "irc.example.org" 6697) in
  let w' := final (call Sample.unique_command "CLIENT_CONNECT"
                        (lifecycle_fields (conn w)) w) in
  size (handlers_of (coros h) "CLIENT_CONNECT") = 2 /\
  length (launches (trace w')) = 2 /\
  (effects (trace w')).*2 = ["send NICK"; "send NICK";
                             "send JOIN"; "send JOIN"].
Proof. by vm_compute. Qed.

(** C5. When the read of a turn of the loop comes back empty, the turn
    is one disconnect followed at once by one connect: the writer is
    closed, CLIENT_DISCONNECT is dispatched, then the connection to the
    same host and port is opened and CLIENT_CONNECT dispatched, nothing
    else happening in between but the handlers of the two events.  The
    turn returns, so the loop goes on, and the reader it will read from
    is the new stream.  (The server accepts the connection and the
    handlers of the two events finish.) *)
Theorem empty_read_reconnects
  (unique_command : string -> option string)
  (parse : string -> option parsed)
  (unpack : parsed -> string * kwargs)
  (server : nat -> option (list string))
  (w w1 : world) (lines : list string)
  (Hread : read w = Ok "" w1)
  (Hserver : server (attempts w) = Some lines)
  (Hhalt : forall c id f,
      c ∈ LOCAL_COMMANDS ->
      handlers_of (coros (handle w)) c !! id = Some f ->
      halts (f (lifecycle_fields (conn w)))) :
  exists w' t1 t2,
    loop_body unique_command parse unpack server w = Ok tt w' /\
    trace w' =
      trace w ++ closing (conn w)
        ++ [Dispatched "CLIENT_DISCONNECT" (lifecycle_fields (conn w))]
        ++ t1
        ++ [Resumed; Opened (host (conn w)) (port (conn w));
            Dispatched "CLIENT_CONNECT" (lifecycle_fields (conn w))]
        ++ t2 ++ [Resumed] /\
    Forall group_event t1 /\ Forall group_event t2 /\
    host (conn w') = host (conn w) /\ port (conn w') = port (conn w) /\
    reader (conn w') = Some lines /\ writer (conn w') = Some (attempts w) /\
    attempts w' = S (attempts w).
Proof.
  pose proof (read_frame w) as Hframe. rewrite Hread in Hframe.
  cbn in Hframe. destruct Hframe as (Hh & Hp & Hwr & Hhd & Hatt & Htr).
  assert (Hkw : lifecycle_fields (conn w1) = lifecycle_fields (conn w)).
  { unfold lifecycle_fields. by rewrite Hh, Hp. }
  assert (Hlocal : forall c, c ∈ LOCAL_COMMANDS ->
                             get_command unique_command c = Some c).
  { intros c. apply get_command_lifecycle. }
  pose proof CLIENT_DISCONNECT_local as Hd.
  pose proof CLIENT_CONNECT_local as Hc.
  (* the disconnect *)
  set (wd := set_conn (released (conn w1)) (emit (closing (conn w1)) w1)).
  destruct (call_halting unique_command "CLIENT_DISCONNECT"
              (lifecycle_fields (conn w1)) wd _ (Hlocal _ Hd))
    as (w2 & t1 & Hcall1 & Htr1 & Hg1 & _ & Hconn1 & Hatt1 & Hsets1).
  { intros id f Hf. rewrite Hkw. apply (Hhalt "CLIENT_DISCONNECT" id f Hd).
    cbn in Hf. by rewrite Hhd in Hf. }
  (* the connect *)
  set (wc := emit [Opened (host (conn w2)) (port (conn w2))]
               {| conn := {| host := host (conn w2); port := port (conn w2);
                             reader := Some lines;
                             writer := Some (attempts w2) |};
                  handle := handle w2;
                  attempts := S (attempts w2); trace := trace w2 |}).
  assert (Hkw2 : lifecycle_fields (conn w2) = lifecycle_fields (conn w)).
  { rewrite Hconn1. cbn. by rewrite lifecycle_fields_released. }
  destruct (call_halting unique_command "CLIENT_CONNECT"
              (lifecycle_fields (conn w2)) wc _ (Hlocal _ Hc))
    as (w3 & t2 & Hcall2 & Htr2 & Hg2 & _ & Hconn2 & Hatt2 & _).
  { intros id f Hf. rewrite Hkw2. apply (Hhalt "CLIENT_CONNECT" id f Hc).
    cbn in Hf. rewrite Hsets1 in Hf. cbn in Hf. by rewrite Hhd in Hf. }
  exists w3, t1, t2.
  assert (Hatt2' : attempts w2 = attempts w) by (rewrite Hatt1; cbn; done).
  split.
  { unfold loop_body, bind. rewrite Hread.
    rewrite bool_decide_false by (intros H; by apply H).
    unfold reconnect, bind. rewrite disconnect_unfold.
    fold wd. rewrite Hcall1.
    rewrite (connect_opened _ _ _ lines) by (by rewrite Hatt2').
    fold wc. exact Hcall2. }
  rewrite Htr2, Hconn2, Hatt2. cbn. rewrite Htr1, Hconn1, Hatt1. cbn.
  rewrite lifecycle_fields_released, Hkw, Htr, Hh, Hp, Hatt.
  unfold closing. rewrite Hwr.
  split_and!; try done.
  rewrite <- !(assoc_L (++)). cbn. by rewrite <- !(assoc_L (++)).
Qed.

(** C5, at the example: the first stream is at its end; the second
    attempt of the example server is accepted. *)
Lemma empty_read_reconnects_witness :
  let h := Sample.registered [("client_connect", Sample.greet);
                               ("client_disconnect", Sample.faulty)] in
  let w := {| conn := {| host := "irc.example.org"; port := 6697;
                         reader := Some []; writer := Some 0 |};
              handle := h; attempts := 1; trace := [] |} in
  exists w',
    loop_body Sample.unique_command Sample.parse Sample.unpack
              Sample.server w = Ok tt w' /\
    host (conn w') = "irc.example.org" /\ port (conn w') = 6697%Z /\
    reader (conn w') = Some ["PING irc.example.org"] /\
    writer (conn w') = Some 1.
Proof.
  cbn zeta.
  set (h := Sample.registered _).
  set (w := {| conn := _; handle := h; attempts := 1; trace := [] |}).
  destruct (empty_read_reconnects Sample.unique_command Sample.parse
              Sample.unpack Sample.server w w ["PING irc.example.org"]
              eq_refl eq_refl)
    as (w' & t1 & t2 & Hbody & _ & _ & _ & Hh & Hp & Hr & Hw & _).
  - intros c id f _. subst w. cbn [handle conn]. subst h. handlers_halt.
  - by exists w'.
Defined.

(** C6. Connection.disconnect always ends with both streams released
    (host and port kept), closes the writer if there was one, and
    dispatches CLIENT_DISCONNECT with the fields host and port; it never
    raises.  On a connection that is already disconnected it is that
    dispatch and nothing else. *)
Theorem disconnect_releases_and_dispatches
  (unique_command : string -> option string) (w : world) :
  let r := disconnect unique_command w in
  let kw : kwargs := {[ "host" := VStr (host (conn w));
                        "port" := VInt (port (conn w)) ]} in
  conn (final r) = released (conn w) /\
  (exists rest,
     trace (final r) = trace w ++ closing (conn w)
                         ++ [Dispatched "CLIENT_DISCONNECT" kw] ++ rest /\
     Forall (fun e => group_event e \/ e = Resumed) rest) /\
  (forall e w', r ≠ Exn e w') /\
  (reader (conn w) = None -> writer (conn w) = None ->
   r = call unique_command "CLIENT_DISCONNECT" kw w /\
   conn (final r) = conn w).
Proof.
  cbn zeta. rewrite disconnect_unfold.
  set (w1 := set_conn (released (conn w)) (emit (closing (conn w)) w)).
  assert (Hc : get_command unique_command "CLIENT_DISCONNECT"
               = Some "CLIENT_DISCONNECT").
  { apply get_command_lifecycle, CLIENT_DISCONNECT_local. }
  destruct (call_frame unique_command "CLIENT_DISCONNECT"
              (lifecycle_fields (conn w)) w1) as (Hconn & _).
  destruct (call_dispatches unique_command "CLIENT_DISCONNECT"
              (lifecycle_fields (conn w)) w1 _ Hc) as (Hexn & rest & Htr & Hrest).
  split_and!.
  - by rewrite Hconn.
  - exists rest. rewrite Htr. cbn. by rewrite <- !(assoc_L (++)).
  - exact Hexn.
  - intros Hr Hw.
    assert (Hw1 : w1 = w).
    { unfold w1, closing, released, set_conn, emit. rewrite Hw.
      destruct w as [[h p r wr] hd n tr]. cbn in *. subst.
      by rewrite app_nil_r. }
    rewrite Hw1 in *. split; [done|]. by rewrite Hconn.
Qed.

(** C6, at the example: disconnect on a client that never connected. *)
Lemma disconnect_releases_and_dispatches_witness :
  let w := Client_init "irc.example.org" 6697 in
  disconnect Sample.unique_command w
    = call Sample.unique_command "CLIENT_DISCONNECT"
           {[ "host" := VStr "irc.example.org"; "port" := VInt 6697 ]} w /\
  conn (final (disconnect Sample.unique_command w)) = conn w.
Proof.
  exact (proj2 (proj2 (proj2 (disconnect_releases_and_dispatches
                                Sample.unique_command
                                (Client_init "irc.example.org" 6697))))
               eq_refl eq_refl).
Defined.

(** C7. Registration validates at once: for a command that normalises to
    [c] (a canonical name, which normalises to itself), a handler with a
    declared parameter outside the legal fields of [c] makes both
    Handler.add and Client.on fail with the binding error and no registry
    is produced, so no event can have been dispatched to it; a handler
    whose parameters are all legal fields is registered, under [c]. *)
Theorem registration_validates_signature
  (unique_command : string -> option string)
  (fields : string -> list string)
  (partial_bind : string -> func -> invoker)
  (command c : string) (f : func) (h : Handler)
  (Hcommand : get_command unique_command command = Some c)
  (Hcanonical : get_command unique_command c = Some c) :
  (¬ parameters f ⊆ fields c ->
     add unique_command fields partial_bind command f h
       = inl (BindingError c) /\
     on unique_command fields partial_bind command f h
       = inl (BindingError c)) /\
  (parameters f ⊆ fields c ->
     exists h',
       add unique_command fields partial_bind command f h = inr h' /\
       on unique_command fields partial_bind command f h = inr h' /\
       handlers_of (coros h') c !! allocated h = Some (partial_bind c f)).
Proof.
  split; intros Hsub.
  - rewrite (on_add _ _ _ _ _ _ _ Hcommand).
    by rewrite !(add_rejects _ _ _ _ _ _ c).
  - eexists. rewrite (on_add _ _ _ _ _ _ _ Hcommand).
    rewrite !(add_accepts _ _ _ _ _ _ c) by done.
    split_and!; [done..|]. cbn.
    by rewrite handlers_of_insert, lookup_insert_eq.
Qed.

(** C7, at the example: a handler asking for host is registered for
    CLIENT_CONNECT; one asking for nick as well is refused. *)
Lemma registration_validates_signature_witness :
  (exists h', on Sample.unique_command Sample.fields Sample.partial_bind
                 "client_connect" Sample.greet Handler_init = inr h') /\
  on Sample.unique_command Sample.fields Sample.partial_bind
     "client_connect" Sample.greedy Handler_init
    = inl (BindingError "CLIENT_CONNECT").
Proof.
  split.
  - destruct (proj2 (registration_validates_signature
                       Sample.unique_command Sample.fields
                       Sample.partial_bind "client_connect" "CLIENT_CONNECT"
                       Sample.greet Handler_init eq_refl eq_refl))
      as (h' & _ & Hon & _).
    + apply (bool_decide_unpack _). by vm_compute.
    + by exists h'.
  - apply (proj1 (registration_validates_signature
                    Sample.unique_command Sample.fields
                    Sample.partial_bind "client_connect" "CLIENT_CONNECT"
                    Sample.greedy Handler_init eq_refl eq_refl)).
    intros H. apply (bool_decide_pack _) in H. by vm_compute in H.
Defined.

(** C8. Normalisation does not depend on the case of the token ("join"
    and "JOIN" agree).  The two life cycle names, CLIENT_CONNECT and
    CLIENT_DISCONNECT, are answered by get_command itself in any letter
    case, whatever the protocol table says of them, and every other ASCII
    token is handed, upper-cased, to the protocol table.  For a protocol
    table whose names are canonical and ASCII, what normalisation returns
    is upper-case ASCII text and normalises to itself: normalisation is
    idempotent on the tokens it accepts. *)
Theorem get_command_idempotent_case_insensitive
  (unique_command : string -> option string)
  (Htable : canonical_table unique_command)
  (Hnames : forall t c, unique_command t = Some c -> isascii c = true) :
  (forall t c, get_command unique_command t = Some c ->
               isascii c = true /\ upper c = c /\
               get_command unique_command c = Some c) /\
  (forall s t, upper s = upper t ->
               get_command unique_command s = get_command unique_command t) /\
  get_command unique_command "join" = get_command unique_command "JOIN" /\
  (forall table t, upper t = "CLIENT_CONNECT" ->
                   get_command table t = Some "CLIENT_CONNECT") /\
  (forall table t, upper t = "CLIENT_DISCONNECT" ->
                   get_command table t = Some "CLIENT_DISCONNECT") /\
  (forall t, isascii t = true ->
             upper t <> "CLIENT_CONNECT" -> upper t <> "CLIENT_DISCONNECT" ->
             get_command unique_command t = unique_command (upper t)).
Proof.
  split_and!.
  - intros t c Hc.
    destruct (decide (upper t ∈ LOCAL_COMMANDS)) as [Hl|Hl].
    + rewrite get_command_local in Hc by done. injection Hc as <-.
      split_and!.
      * apply elem_of_LOCAL_COMMANDS in Hl as [-> | ->]; reflexivity.
      * apply upper_idem.
      * by apply get_command_lifecycle.
    + rewrite get_command_protocol in Hc by done.
      destruct (Htable t c Hc) as [Hup Hfix].
      split_and!; [by apply (Hnames _ _ Hc)|done|].
      destruct (decide (c ∈ LOCAL_COMMANDS)) as [Hc'|Hc'].
      * by apply get_command_lifecycle.
      * rewrite get_command_protocol; rewrite Hup; auto.
  - intros s t Hst. unfold get_command. by rewrite Hst.
  - reflexivity.
  - intros table t Ht. rewrite get_command_local; rewrite Ht; [done|].
    apply CLIENT_CONNECT_local.
  - intros table t Ht. rewrite get_command_local; rewrite Ht; [done|].
    apply CLIENT_DISCONNECT_local.
  - intros t _ H1 H2. apply get_command_protocol.
    intros [?|?]%elem_of_LOCAL_COMMANDS; done.
Qed.

(** C8, at the example table: "001" and its name agree, the name is a
    fixed point, and "Client_Connect" is answered without the table. *)
Lemma get_command_idempotent_case_insensitive_witness :
  canonical_table Sample.unique_command /\
  (forall t c, Sample.unique_command t = Some c -> isascii c = true) /\
  get_command Sample.unique_command "001" = Some "RPL_WELCOME" /\
  get_command Sample.unique_command "RPL_WELCOME" = Some "RPL_WELCOME" /\
  get_command (fun _ => None) "Client_Connect" = Some "CLIENT_CONNECT".
Proof.
  split; [exact Sample_table_canonical|].
  split; [exact Sample_table_ascii|]. split; [reflexivity|].
  pose proof (get_command_idempotent_case_insensitive
                Sample.unique_command Sample_table_canonical
                Sample_table_ascii) as (Hidem & _ & _ & Hconnect & _).
  split.
  - exact (proj2 (proj2 (Hidem "001" "RPL_WELCOME" eq_refl))).
  - exact (Hconnect (fun _ => None) "Client_Connect" eq_refl).
Defined.

(** C9. Dispatching a command that normalises and has no handler (no
    entry, or an entry with the empty set) returns at once and normally:
    the trace gains the entry and the return of the dispatch and nothing
    between them, no task is launched, the connection is untouched. *)
Theorem dispatch_without_handlers_returns
  (unique_command : string -> option string)
  (command c : string) (kw : kwargs) (w : world)
  (Hcommand : get_command unique_command command = Some c)
  (Hnone : handlers_of (coros (handle w)) c = ∅) :
  exists w',
    call unique_command command kw w = Ok tt w' /\
    trace w' = trace w ++ [Dispatched c kw; Resumed] /\
    conn w' = conn w /\ attempts w' = attempts w.
Proof.
  rewrite (call_empty _ _ _ _ _ Hcommand Hnone). eexists. split; [done|].
  cbn. by rewrite <- (assoc_L (++)).
Qed.

(** C9, at the example: PING on a new client. *)
Lemma dispatch_without_handlers_returns_witness :
  exists w',
    call Sample.unique_command "ping" ∅
         (Client_init "irc.example.org" 6697) = Ok tt w' /\
    trace w' = [Dispatched "PING" ∅; Resumed].
Proof.
  destruct (dispatch_without_handlers_returns Sample.unique_command
              "ping" "PING" ∅ (Client_init "irc.example.org" 6697)
              eq_refl eq_refl) as (w' & Hcall & Htr & _).
  by exists w'.
Defined.

(** C10, the counterexample: on a new client, whose registry is empty,
    dispatching PING leaves an entry for PING in the registry. *)
Lemma dispatch_adds_registry_entry :
  let w := Client_init "irc.example.org" 6697 in
  let w' := final (call Sample.unique_command "PING" ∅ w) in
  coros (handle w) !! "PING" = None /\
  coros (handle w') !! "PING" = Some ∅ /\
  coros (handle w') ≠ coros (handle w).
Proof.
  cbn zeta. split; [done|].
  assert (H : coros (handle (final (call Sample.unique_command "PING" ∅
                       (Client_init "irc.example.org" 6697)))) !! "PING"
              = Some ∅) by (by vm_compute).
  split; [done|]. intros Heq. rewrite Heq in H. discriminate.
Qed.

(** C10, as the code has it.  Dispatch never changes the set of handlers
    a command maps to, nor the allocator; but the registry is a
    defaultdict, and the lookup of the dispatch inserts the normalised
    command with an empty set when the dictionary has no entry for it.
    A dispatch whose command does not normalise changes nothing. *)
Theorem dispatch_preserves_handler_sets
  (unique_command : string -> option string)
  (command : string) (kw : kwargs) (w : world) :
  let w' := final (call unique_command command kw w) in
  (forall k, handlers_of (coros (handle w')) k
             = handlers_of (coros (handle w)) k) /\
  allocated (handle w') = allocated (handle w) /\
  match get_command unique_command command with
  | Some c =>
      coros (handle w') =
        match coros (handle w) !! c with
        | Some _ => coros (handle w)
        | None => <[c := ∅]> (coros (handle w))
        end
  | None => coros (handle w') = coros (handle w)
  end.
Proof.
  cbn zeta.
  destruct (call_frame unique_command command kw w) as (_ & _ & Ha & Hs).
  split; [done|]. split; [done|].
  destruct (get_command unique_command command) as [c|] eqn:Hc.
  - rewrite (call_coros _ _ _ _ _ Hc). unfold getitem.
    by destruct (coros (handle w) !! c).
  - by rewrite call_unknown.
Qed.

(** * Further properties of the code *)

(** ** Strings *)

Lemma app_cons c s t : String c s +:+ t = String c (s +:+ t).
Proof. reflexivity. Qed.

Lemma app_empty_l t : "" +:+ t = t.
Proof. reflexivity. Qed.

Lemma app_length_s s t :
  String.length (s +:+ t) = String.length s + String.length t.
Proof. induction s as [|c s IH]; [done|]. rewrite app_cons. cbn. by rewrite IH. Qed.

Lemma app_cancel_r s1 s2 t : s1 +:+ t = s2 +:+ t -> s1 = s2.
Proof.
  revert s2. induction s1 as [|c s1 IH]; intros [|d s2] H; [done| | |].
  - exfalso. apply (f_equal String.length) in H.
    rewrite app_empty_l, app_cons in H. cbn in H. rewrite app_length_s in H. lia.
  - exfalso. apply (f_equal String.length) in H.
    rewrite app_empty_l, app_cons in H. cbn in H. rewrite app_length_s in H. lia.
  - rewrite !app_cons in H. injection H as -> H. by rewrite (IH s2 H).
Qed.

(** Facts about single bytes: the tests on byte values are turned into
    arithmetic. *)
Ltac bytes :=
  unfold leading, isspace, isspace2, isspace3 in *; cbn zeta in *;
  repeat match goal with
         | H : _ = false |- _ => apply not_true_iff_false in H
         | |- _ = false => apply not_true_iff_false; intros ?
         end;
  repeat (rewrite andb_true_iff in * || rewrite orb_true_iff in * ||
          rewrite Nat.eqb_eq in * || rewrite Nat.leb_le in *);
  try (intuition lia).

Lemma isspace2_leading a b : leading b = true -> isspace2 a b = false.
Proof. intros H. bytes. Qed.

Lemma isspace3_leading_2 a b c : leading b = true -> isspace3 a b c = false.
Proof. intros H. bytes. Qed.

Lemma isspace3_leading_3 a b c : leading c = true -> isspace3 a b c = false.
Proof. intros H. bytes. Qed.

Lemma string_length_ind (P : string -> Prop) :
  (forall s, (forall t, String.length t < String.length s -> P t) -> P s) ->
  forall s, P s.
Proof.
  intros step s.
  assert (H : forall n t, String.length t < n -> P t).
  { induction n as [|n IH]; intros t Ht; [lia|].
    apply step. intros u Hu. apply IH. lia. }
  apply (H (S (String.length s))). lia.
Qed.

Lemma lstrip_length s : String.length (lstrip s) <= String.length s.
Proof.
  induction s as [s IH] using string_length_ind.
  destruct s as [|a s1]; [done|]. cbn [lstrip].
  destruct (isspace a).
  { specialize (IH s1). cbn in *. lia. }
  destruct s1 as [|b s2]; [done|].
  destruct (isspace2 a b).
  { specialize (IH s2). cbn in *. lia. }
  destruct s2 as [|c s3]; [done|].
  destruct (isspace3 a b c); [|done].
  specialize (IH s3). cbn in *. lia.
Qed.

Lemma lstrip_idem s : lstrip (lstrip s) = lstrip s.
Proof.
  induction s as [s IH] using string_length_ind.
  destruct s as [|a s1]; [done|]. cbn [lstrip].
  destruct (isspace a) eqn:Ha.
  { apply IH. cbn. lia. }
  destruct s1 as [|b s2].
  { cbn. by rewrite Ha. }
  destruct (isspace2 a b) eqn:Hb.
  { apply IH. cbn. lia. }
  destruct s2 as [|c s3].
  { cbn. by rewrite Ha, Hb. }
  destruct (isspace3 a b c) eqn:Hc.
  { apply IH. cbn. lia. }
  cbn. by rewrite Ha, Hb, Hc.
Qed.

Lemma blank_lstrip s : blank s = true <-> lstrip s = "".
Proof. unfold blank. by destruct (lstrip s). Qed.

Lemma blank_false s : blank s = false <-> lstrip s <> "".
Proof. unfold blank. by destruct (lstrip s). Qed.

Lemma lstrip_blank s : blank s = true -> lstrip s = "".
Proof. apply blank_lstrip. Qed.

(** A blank string begins with the first byte of a white-space character. *)
Lemma blank_leading b t : blank (String b t) = true -> leading b = true.
Proof.
  unfold blank. cbn [lstrip].
  destruct (isspace b) eqn:Hb.
  { intros _. unfold leading. by rewrite Hb. }
  destruct t as [|c t]; [done|].
  destruct (isspace2 b c) eqn:Hc.
  { intros _. clear Hb. bytes. }
  destruct t as [|d t]; [done|].
  destruct (isspace3 b c d) eqn:Hd; [|done].
  intros _. clear Hb Hc. bytes.
Qed.

(** White space after a string is no part of a character that begins in
    the string. *)
Lemma lstrip_app s t :
  blank t = true ->
  lstrip (s +:+ t) = if blank s then "" else lstrip s +:+ t.
Proof.
  intros Ht.
  induction s as [s IH] using string_length_ind.
  destruct s as [|a s1].
  { rewrite app_empty_l. by apply lstrip_blank. }
  rewrite app_cons. unfold blank. cbn [lstrip].
  destruct (isspace a) eqn:Ha.
  { rewrite IH by (cbn; lia). done. }
  destruct s1 as [|b s2].
  { rewrite app_empty_l. destruct t as [|b t]; [done|].
    pose proof (blank_leading _ _ Ht) as Hl.
    rewrite (isspace2_leading a b Hl).
    destruct t as [|c t]; [done|].
    by rewrite (isspace3_leading_2 a b c Hl). }
  rewrite app_cons.
  destruct (isspace2 a b) eqn:Hb.
  { rewrite IH by (cbn; lia). done. }
  destruct s2 as [|c s3].
  { rewrite app_empty_l. destruct t as [|c t]; [done|].
    pose proof (blank_leading _ _ Ht) as Hl.
    by rewrite (isspace3_leading_3 a b c Hl). }
  rewrite app_cons.
  destruct (isspace3 a b c) eqn:Hc; [|done].
  rewrite IH by (cbn; lia). done.
Qed.

Lemma blank_app_r s t : blank t = true -> blank (s +:+ t) = blank s.
Proof.
  intros Ht. unfold blank at 1. rewrite (lstrip_app s t Ht).
  destruct (blank s) eqn:Hs; [done|].
  apply blank_false in Hs. by destruct (lstrip s).
Qed.

Lemma blank_app s t : blank s = true -> blank t = true -> blank (s +:+ t) = true.
Proof. intros Hs Ht. by rewrite blank_app_r. Qed.

Lemma rstrip_blank s : blank s = true -> rstrip s = "".
Proof. intros H. destruct s as [|a s]; [done|]. cbn [rstrip]. by rewrite H. Qed.

Lemma rstrip_empty_blank s : rstrip s = "" -> blank s = true.
Proof.
  destruct s as [|a s]; [done|]. cbn [rstrip].
  by destruct (blank (String a s)).
Qed.

Lemma rstrip_app_blank s t : blank t = true -> rstrip (s +:+ t) = rstrip s.
Proof.
  intros Ht. induction s as [|a s IH].
  - rewrite app_empty_l. by apply rstrip_blank.
  - rewrite app_cons. cbn [rstrip]. rewrite <- app_cons.
    rewrite (blank_app_r (String a s) t Ht). by rewrite IH.
Qed.

(** What [rstrip] removes is white space. *)
Lemma rstrip_split s : exists t, s = rstrip s +:+ t /\ blank t = true.
Proof.
  induction s as [|a s (t & Hs & Ht)].
  - by exists "".
  - cbn [rstrip]. destruct (blank (String a s)) eqn:Hb.
    + by exists (String a s).
    + exists t. by rewrite app_cons, <- Hs.
Qed.

Lemma rstrip_idem s : rstrip (rstrip s) = rstrip s.
Proof.
  destruct (rstrip_split s) as (t & Hs & Ht).
  rewrite Hs at 2. by rewrite rstrip_app_blank.
Qed.

Lemma lstrip_rstrip u : lstrip u = u -> lstrip (rstrip u) = rstrip u.
Proof.
  intros Hu. destruct (rstrip_split u) as (t & Hs & Ht).
  pose proof (lstrip_app (rstrip u) t Ht) as H. rewrite <- Hs, Hu in H.
  destruct (blank (rstrip u)) eqn:Hb.
  - by subst u.
  - apply (app_cancel_r _ _ t). by rewrite <- H.
Qed.

Lemma strip_empty_iff s : strip s = "" <-> blank s = true.
Proof.
  unfold strip. split.
  - intros H%rstrip_empty_blank%blank_lstrip. rewrite lstrip_idem in H.
    by apply blank_lstrip.
  - intros H. by rewrite (lstrip_blank s H).
Qed.

Lemma strip_trimmed s : trimmed (strip s).
Proof.
  unfold trimmed, strip. split.
  - apply lstrip_rstrip, lstrip_idem.
  - apply rstrip_idem.
Qed.

Lemma trimmed_strip s : trimmed s -> strip s = s.
Proof. intros [H1 H2]. unfold strip. by rewrite H1, H2. Qed.

Lemma strip_idem s : strip (strip s) = strip s.
Proof. apply trimmed_strip, strip_trimmed. Qed.

Lemma strip_app_blank s t : blank t = true -> strip (s +:+ t) = strip s.
Proof.
  intros Ht. unfold strip. rewrite (lstrip_app s t Ht).
  destruct (blank s) eqn:Hs.
  - by rewrite (lstrip_blank s Hs).
  - by apply rstrip_app_blank.
Qed.

(** ** What the operations keep *)

Lemma stable_refl w : stable w w.
Proof. unfold stable. auto. Qed.

Lemma stable_trans w1 w2 w3 : stable w1 w2 -> stable w2 w3 -> stable w1 w3.
Proof.
  intros (H1 & H2 & H3 & H4) (G1 & G2 & G3 & G4).
  unfold stable. split_and!; first [congruence | intros k; by rewrite G4].
Qed.

Lemma keeps_ret {A} (a : A) : keeps (ret a).
Proof. intros w. apply stable_refl. Qed.

Lemma keeps_bind {A B} (m : M A) (f : A -> M B) :
  keeps m -> (forall a, keeps (f a)) -> keeps (bind m f).
Proof.
  intros Hm Hf w. specialize (Hm w). unfold bind.
  destruct (m w) as [a w1|e w1|w1]; cbn in *; [|done..].
  eapply stable_trans; [exact Hm|apply Hf].
Qed.

Lemma keeps_call unique_command command kw :
  keeps (call unique_command command kw).
Proof.
  intros w.
  destruct (call_frame unique_command command kw w) as (Hc & _ & Ha & Hs).
  unfold stable. by rewrite Hc.
Qed.

Section Keeping.

Variable unique_command : string -> option string.
Variable parse : string -> option parsed.
Variable unpack : parsed -> string * kwargs.
Variable server : nat -> option (list string).

Lemma keeps_connect : keeps (connect unique_command server).
Proof.
  intros w. destruct (server (attempts w)) as [lines|] eqn:Hs.
  - rewrite (connect_opened _ _ _ _ Hs).
    eapply stable_trans; [|apply keeps_call]. unfold stable. by cbn.
  - rewrite (connect_refused _ _ _ Hs). unfold stable. by cbn.
Qed.

Lemma keeps_disconnect : keeps (disconnect unique_command).
Proof.
  intros w. rewrite disconnect_unfold.
  eapply stable_trans; [|apply keeps_call]. unfold stable. by cbn.
Qed.

Lemma keeps_reconnect : keeps (reconnect unique_command server).
Proof.
  apply keeps_bind; [apply keeps_disconnect|]. intros _. apply keeps_connect.
Qed.

Lemma keeps_read : keeps read.
Proof.
  intros w. destruct (read_frame w) as (Hh & Hp & _ & Hhd & _).
  unfold stable. by rewrite Hhd.
Qed.

Lemma keeps_loop_body : keeps (loop_body unique_command parse unpack server).
Proof.
  apply keeps_bind; [apply keeps_read|]. intros msg.
  case_bool_decide; [|apply keeps_reconnect].
  destruct (parse msg) as [args|]; [|apply keeps_ret].
  destruct (unpack args) as [command kw]. apply keeps_call.
Qed.

Lemma keeps_iterate n (m : M unit) : keeps m -> keeps (iterate n m).
Proof.
  intros Hm. induction n as [|n IH]; cbn; [apply keeps_ret|].
  apply keeps_bind; [done|]. by intros _.
Qed.

Lemma keeps_loop n : keeps (loop unique_command parse unpack server n).
Proof.
  apply keeps_bind; [apply keeps_connect|]. intros _.
  apply keeps_iterate, keeps_loop_body.
Qed.

(** ** Errors and the connected state *)

Lemma call_ok_frame command kw w a w' :
  call unique_command command kw w = Ok a w' ->
  conn w' = conn w /\ attempts w' = attempts w.
Proof.
  intros H. destruct (call_frame unique_command command kw w) as (Hc & Ha & _).
  rewrite H in Hc, Ha. by split.
Qed.

Lemma call_exn command kw w e w' :
  call unique_command command kw w = Exn e w' ->
  get_command unique_command command = None /\
  e = UnknownCommand (upper command) /\ w' = w.
Proof.
  intros H. destruct (get_command unique_command command) as [c|] eqn:Hc.
  - destruct (call_dispatches unique_command command kw w c Hc) as [Hno _].
    by destruct (Hno e w').
  - rewrite call_unknown in H by done. by injection H as <- <-.
Qed.

Lemma lifecycle_call_no_exn c kw w e w' :
  c ∈ LOCAL_COMMANDS -> call unique_command c kw w ≠ Exn e w'.
Proof.
  intros Hc H. apply call_exn in H as [Hnone _].
  by rewrite (get_command_lifecycle _ _ Hc) in Hnone.
Qed.

Lemma connect_exn w e w' :
  connect unique_command server w = Exn e w' ->
  server (attempts w) = None /\ e = ConnectionError.
Proof.
  intros H. destruct (server (attempts w)) as [lines|] eqn:Hs.
  - rewrite (connect_opened _ _ _ _ Hs) in H.
    by apply lifecycle_call_no_exn in H; [|apply CLIENT_CONNECT_local].
  - rewrite (connect_refused _ _ _ Hs) in H. by injection H as <- _.
Qed.

Lemma connect_ok w a w' :
  connect unique_command server w = Ok a w' ->
  exists lines,
    server (attempts w) = Some lines /\
    conn w' = {| host := host (conn w); port := port (conn w);
                 reader := Some lines; writer := Some (attempts w) |} /\
    attempts w' = S (attempts w).
Proof.
  intros H. destruct (server (attempts w)) as [lines|] eqn:Hs.
  - rewrite (connect_opened _ _ _ _ Hs) in H.
    apply call_ok_frame in H as [Hc Ha]. exists lines. by rewrite Hc, Ha.
  - by rewrite (connect_refused _ _ _ Hs) in H.
Qed.

Lemma connect_connected w a w' :
  connect unique_command server w = Ok a w' -> connected w'.
Proof.
  intros H. apply connect_ok in H as (lines & _ & Hc & Ha).
  unfold connected. rewrite Hc, Ha. cbn. split_and!; [by eexists|done|lia].
Qed.

Lemma read_connected w :
  connected w ->
  exists msg w', read w = Ok msg w' /\ connected w' /\ trace w' = trace w.
Proof.
  intros ([lines Hr] & Hw & Hn). unfold read. rewrite Hr.
  destruct lines as [|l ls].
  - eexists _, _. split; [done|]. split; [|done].
    split_and!; [by exists []|done..].
  - eexists _, _. split; [done|]. split; [|done].
    split_and!; [by exists ls|done..].
Qed.

Lemma loop_body_connected w a w' :
  connected w ->
  loop_body unique_command parse unpack server w = Ok a w' -> connected w'.
Proof.
  intros Hconn. destruct (read_connected w Hconn) as (msg & w1 & Hr & Hc1 & _).
  unfold loop_body, bind at 1. rewrite Hr.
  case_bool_decide.
  - destruct (parse msg) as [args|].
    + destruct (unpack args) as [command kw]. intros Hk.
      apply call_ok_frame in Hk as [Hc Ha].
      unfold connected. by rewrite Hc, Ha.
    + by intros [= _ <-].
  - unfold reconnect, bind.
    destruct (disconnect unique_command w1) as [[] w2|e w2|w2]; [|done..].
    apply connect_connected.
Qed.

Lemma iterate_connected n w a w' :
  connected w ->
  iterate n (loop_body unique_command parse unpack server) w = Ok a w' ->
  connected w'.
Proof.
  revert w. induction n as [|n IH]; intros w Hconn; cbn.
  - by intros [= _ <-].
  - unfold bind.
    destruct (loop_body unique_command parse unpack server w)
      as [[] w1|e w1|w1] eqn:Hb; [|done..].
    apply IH. by eapply loop_body_connected.
Qed.

End Keeping.

(** ** Reading and sending *)

Lemma blank_newline : blank newline = true.
Proof. reflexivity. Qed.

(** X1. A line of white space only is read as the empty message, so the
    loop treats it as the end of the stream: the turn consumes the line
    and reconnects, whatever the parser would have said of it. *)
Theorem blank_line_reconnects
  (unique_command : string -> option string)
  (parse : string -> option parsed)
  (unpack : parsed -> string * kwargs)
  (server : nat -> option (list string))
  (w : world) (line : string) (rest : list string)
  (Hreader : reader (conn w) = Some (line :: rest))
  (Hblank : blank line = true) :
  loop_body unique_command parse unpack server w =
    reconnect unique_command server
      (set_conn {| host := host (conn w); port := port (conn w);
                   reader := Some rest; writer := writer (conn w) |} w).
Proof.
  unfold loop_body, bind, read. rewrite Hreader.
  rewrite (proj2 (strip_empty_iff line) Hblank).
  by rewrite bool_decide_false by (intros H; by apply H).
Qed.

Lemma blank_line_reconnects_witness :
  let w := {| conn := {| host := "irc.example.org"; port := 6697;
                         reader := Some ["  "; "PING x"];
                         writer := Some 0 |};
              handle := Handler_init; attempts := 1; trace := [] |} in
  launches (trace (final (loop_body Sample.unique_command Sample.parse
                                    Sample.unpack Sample.server w))) = [] /\
  reader (conn (final (loop_body Sample.unique_command Sample.parse
                                 Sample.unpack Sample.server w)))
    = Some ["PING irc.example.org"].
Proof.
  intros w.
  rewrite (blank_line_reconnects Sample.unique_command Sample.parse
             Sample.unpack Sample.server w "  " ["PING x"] eq_refl eq_refl).
  split; by vm_compute.
Defined.

(** X2. What Connection.read returns has no white space at either end,
    and it is the empty message exactly when the stream is at its end or
    its next line is blank. *)
Theorem read_returns_trimmed (w w' : world) (msg : string)
  (Hread : read w = Ok msg w') :
  strip msg = msg /\
  (msg = "" <->
   reader (conn w) = Some [] \/
   exists line rest, reader (conn w) = Some (line :: rest) /\
                     blank line = true).
Proof.
  unfold read in Hread.
  destruct (reader (conn w)) as [[|line rest]|]; [| |done].
  - injection Hread as <- _. split; [done|]. split; [by left|done].
  - injection Hread as <- _. split; [apply strip_idem|].
    rewrite strip_empty_iff. split.
    + intros Hb. right. by exists line, rest.
    + intros [?|(l & r & [= <- _] & Hb)]; done.
Qed.

Lemma read_returns_trimmed_witness :
  let w := {| conn := {| host := "irc.example.org"; port := 6697;
                         reader := Some [Sample.nbsp +:+ " PING x  ";
                                         Sample.nbsp +:+ Sample.emsp];
                         writer := Some 0 |};
              handle := Handler_init; attempts := 1; trace := [] |} in
  exists w1 w2,
    read w = Ok "PING x" w1 /\ strip "PING x" = "PING x" /\
    read w1 = Ok "" w2 /\
    exists line rest, reader (conn w1) = Some (line :: rest) /\
                      blank line = true.
Proof.
  intros w. set (w1 := final (read w)).
  exists w1, (final (read w1)). split; [reflexivity|].
  split; [exact (proj1 (read_returns_trimmed w w1 "PING x" eq_refl))|].
  split; [reflexivity|].
  destruct (proj1 (proj2 (read_returns_trimmed w1 (final (read w1)) ""
                            eq_refl)) eq_refl) as [H|H];
    [by vm_compute in H|exact H].
Defined.

Lemma lines_of_one_line s :
  one_line s = true -> lines_of (s +:+ newline) = [s +:+ newline].
Proof.
  induction s as [|c s IH]; [done|]. cbn [one_line].
  intros [Hc Hs]%andb_true_iff. rewrite app_cons. cbn [lines_of].
  apply negb_true_iff in Hc. by rewrite Hc, (IH Hs).
Qed.

(** X3. Connection.send writes the stripped message followed by one
    newline to the current writer.  When the stripped message has no
    newline in it, readline makes one line of that text, and a stream
    that delivers it has it read as the stripped message: read undoes
    what send added. *)
Theorem send_then_read (msg : string) (c : Connection) (wr : nat)
  (Hwriter : writer c = Some wr)
  (Hline : one_line (strip msg) = true) :
  exists text,
    send msg c = inr (wr, text) /\
    lines_of text = [strip msg +:+ newline] /\
    forall w rest,
      reader (conn w) = Some (lines_of text ++ rest) ->
      exists w', read w = Ok (strip msg) w' /\ reader (conn w') = Some rest.
Proof.
  exists (strip msg +:+ newline).
  rewrite (lines_of_one_line _ Hline). split; [|split; [done|]].
  - unfold send. by rewrite Hwriter.
  - intros w rest Hr. unfold read. rewrite Hr. cbn [app].
    rewrite (strip_app_blank _ _ blank_newline), strip_idem.
    eexists. split; [reflexivity|done].
Qed.

Lemma send_then_read_witness :
  let c := {| host := "irc.example.org"; port := 6697;
              reader := Some []; writer := Some 0 |} in
  one_line (strip "  JOIN #weather  ") = true /\
  exists text,
    send "  JOIN #weather  " c = inr (0, text) /\
    lines_of text = ["JOIN #weather" +:+ newline].
Proof.
  intros c. split; [reflexivity|].
  destruct (send_then_read "  JOIN #weather  " c 0 eq_refl eq_refl)
    as (text & Hsend & Hlines & _).
  exists text. split; [exact Hsend|exact Hlines].
Defined.

(** X4. Without a writer nothing can be sent: Connection.send and
    Client.send raise AttributeError on a client that never connected and
    after every disconnect, and the handlers of CLIENT_DISCONNECT already
    run with the writer released. *)
Theorem send_needs_connection
  (unique_command : string -> option string)
  (wire_format : string -> list pyval -> option string -> option string
                 -> string)
  (msg command : string) (params : list pyval)
  (message prefix : option string) :
  (forall h p, send msg (conn (Client_init h p)) = inl AttributeError) /\
  (forall w,
     send msg (conn (final (disconnect unique_command w)))
       = inl AttributeError /\
     Client_send wire_format command params message prefix
                 (conn (final (disconnect unique_command w)))
       = inl AttributeError /\
     exists w1,
       disconnect unique_command w
         = call unique_command "CLIENT_DISCONNECT"
                (lifecycle_fields (conn w)) w1 /\
       send msg (conn w1) = inl AttributeError).
Proof.
  split; [done|]. intros w.
  assert (Hc : conn (final (disconnect unique_command w))
               = released (conn w)).
  { rewrite disconnect_unfold.
    by destruct (call_frame unique_command "CLIENT_DISCONNECT"
                   (lifecycle_fields (conn w))
                   (set_conn (released (conn w))
                             (emit (closing (conn w)) w))) as [-> _]. }
  split_and!.
  - by rewrite Hc.
  - unfold Client_send. by rewrite Hc.
  - eexists. split; [apply disconnect_unfold|done].
Qed.

(** X5. While Connection.loop runs it is connected: after any number of
    turns that all returned, there is a reader, the writer is the one of
    the latest connection, and a send succeeds on it. *)
Theorem loop_stays_connected
  (unique_command : string -> option string)
  (parse : string -> option parsed)
  (unpack : parsed -> string * kwargs)
  (server : nat -> option (list string))
  (n : nat) (w w' : world) (a : unit)
  (Hloop : loop unique_command parse unpack server n w = Ok a w') :
  is_Some (reader (conn w')) /\
  writer (conn w') = Some (pred (attempts w')) /\
  attempts w < attempts w' /\
  forall msg,
    send msg (conn w') = inr (pred (attempts w'), strip msg +:+ newline).
Proof.
  unfold loop, bind in Hloop.
  destruct (connect unique_command server w) as [[] w1|e w1|w1] eqn:Hc;
    [|done..].
  pose proof (connect_connected _ _ _ _ _ Hc) as Hconn.
  pose proof (iterate_connected _ _ _ _ _ _ _ _ Hconn Hloop)
    as (Hr & Hw & Hn).
  split; [done|]. split; [done|]. split.
  - apply connect_ok in Hc as (_ & _ & _ & Ha).
    assert (Hlt : attempts w < attempts w1) by lia.
    clear Hr Hw Hn Hconn Ha. revert w1 Hlt Hloop.
    induction n as [|k IH]; intros w1 Ha; cbn.
    + intros Hk. injection Hk as _ <-. lia.
    + unfold bind.
      destruct (loop_body unique_command parse unpack server w1)
        as [[] w2|e w2|w2] eqn:Hb; [|done..].
      intros Hk. apply (IH w2); [|done].
      enough (attempts w1 <= attempts w2) by lia.
      clear -Hb. unfold loop_body, bind in Hb.
      destruct (read_frame w1) as (_ & _ & _ & _ & Hra & _).
      destruct (read w1) as [msg w3|e w3|w3]; [|done..]. cbn in Hra.
      case_bool_decide.
      * destruct (parse msg) as [args|].
        -- destruct (unpack args) as [command kw].
           apply call_ok_frame in Hb as [_ Hb]. lia.
        -- injection Hb as <-. lia.
      * unfold reconnect, bind in Hb. rewrite disconnect_unfold in Hb.
        match type of Hb with
        | match ?c with _ => _ end = _ => destruct c as [[] w4|e w4|w4] eqn:Hd
        end; [|done..].
        apply call_ok_frame in Hd as [_ Hd]. cbn in Hd.
        apply connect_ok in Hb as (_ & _ & _ & Hb). lia.
  - intros msg. unfold send. by rewrite Hw.
Qed.

Lemma loop_stays_connected_witness :
  let w := set_handle (Sample.registered [("ping", Sample.pong)])
                      (Client_init "irc.example.org" 6697) in
  exists w',
    loop Sample.unique_command Sample.parse Sample.unpack Sample.server 3 w
      = Ok tt w' /\
    send "PONG" (conn w') = inr (1, "PONG" +:+ newline).
Proof.
  intros w.
  assert (H : loop Sample.unique_command Sample.parse Sample.unpack
                   Sample.server 3 w
              = Ok tt (final (loop Sample.unique_command Sample.parse
                                   Sample.unpack Sample.server 3 w)))
    by (by vm_compute).
  eexists. split; [exact H|].
  rewrite (proj2 (proj2 (proj2 (loop_stays_connected _ _ _ _ _ _ _ _ H)))).
  by vm_compute.
Defined.

(** X7. However Connection.loop ends, it has not changed the host or
    the port of the connection, nor the set of handlers any command maps
    to, nor the allocator of the registry. *)
Theorem loop_keeps_address_and_handlers
  (unique_command : string -> option string)
  (parse : string -> option parsed)
  (unpack : parsed -> string * kwargs)
  (server : nat -> option (list string))
  (n : nat) (w : world) :
  let w' := final (loop unique_command parse unpack server n w) in
  host (conn w') = host (conn w) /\ port (conn w') = port (conn w) /\
  allocated (handle w') = allocated (handle w) /\
  forall k, handlers_of (coros (handle w')) k
            = handlers_of (coros (handle w)) k.
Proof. apply keeps_loop. Qed.

(** ** Registration *)

Lemma handlers_of_empty k : handlers_of ∅ k = ∅.
Proof. unfold handlers_of, getitem. by rewrite lookup_empty. Qed.

Lemma wf_handler_init : wf_handler Handler_init.
Proof.
  intros k id [g Hg]. cbn in Hg.
  by rewrite handlers_of_empty, lookup_empty in Hg.
Qed.

Lemma add_inr unique_command fields partial_bind command f h h' :
  add unique_command fields partial_bind command f h = inr h' ->
  exists c,
    get_command unique_command command = Some c /\
    parameters f ⊆ fields c /\
    h' = {| coros := <[c := <[allocated h := partial_bind c f]>
                               (handlers_of (coros h) c)]>
                       (getitem (coros h) c).2;
            allocated := Pos.succ (allocated h) |}.
Proof.
  unfold add, validate.
  destruct (get_command unique_command command) as [c|]; [|done].
  case_bool_decide as Hsub; [|done].
  rewrite (getitem_surjective (coros h) c). intros [= <-]. by exists c.
Qed.

Lemma get_command_fixed unique_command t c :
  canonical_table unique_command ->
  get_command unique_command t = Some c ->
  get_command unique_command c = Some c.
Proof.
  intros Htable Hc.
  destruct (decide (upper t ∈ LOCAL_COMMANDS)) as [Hl|Hl].
  - rewrite get_command_local in Hc by done. injection Hc as <-.
    by apply get_command_lifecycle.
  - rewrite get_command_protocol in Hc by done.
    destruct (Htable t c Hc) as [Hup Hfix].
    destruct (decide (c ∈ LOCAL_COMMANDS)) as [Hc'|Hc'].
    + by apply get_command_lifecycle.
    + rewrite get_command_protocol; rewrite Hup; auto.
Qed.

(** X8. Registration only adds.  On a registry whose bindings are all
    older than its allocator (as they are from Handler.__init__ on), a
    successful Handler.add puts exactly one new binding, under the
    normalised command and a new identity, keeps every binding there was,
    and leaves the registry in the same condition. *)
Theorem add_only_adds
  (unique_command : string -> option string)
  (fields : string -> list string)
  (partial_bind : string -> func -> invoker)
  (command : string) (f : func) (h h' : Handler)
  (Hwf : wf_handler h)
  (Hadd : add unique_command fields partial_bind command f h = inr h') :
  wf_handler h' /\
  exists c,
    get_command unique_command command = Some c /\
    handlers_of (coros h) c !! allocated h = None /\
    handlers_of (coros h') c
      = <[allocated h := partial_bind c f]> (handlers_of (coros h) c) /\
    size (handlers_of (coros h') c) = S (size (handlers_of (coros h) c)) /\
    (forall k, k ≠ c ->
               handlers_of (coros h') k = handlers_of (coros h) k) /\
    (forall k id g, handlers_of (coros h) k !! id = Some g ->
                    handlers_of (coros h') k !! id = Some g).
Proof.
  destruct (add_inr _ _ _ _ _ _ _ Hadd) as (c & Hc & _ & ->). cbn.
  assert (Hfresh : forall k, handlers_of (coros h) k !! allocated h = None).
  { intros k. destruct (handlers_of (coros h) k !! allocated h) eqn:E; [|done].
    pose proof (Hwf k (allocated h) (mk_is_Some _ _ E)). lia. }
  assert (Hother : forall k, k ≠ c ->
            handlers_of (<[c := <[allocated h := partial_bind c f]>
                                  (handlers_of (coros h) c)]>
                           (getitem (coros h) c).2) k
            = handlers_of (coros h) k).
  { intros k Hk. rewrite handlers_of_insert_ne by done.
    apply handlers_of_getitem. }
  split.
  - intros k id. cbn. destruct (decide (k = c)) as [->|Hk].
    + rewrite handlers_of_insert.
      destruct (decide (id = allocated h)) as [->|Hid]; [lia|].
      rewrite lookup_insert_ne by done. intros H%Hwf. lia.
    + rewrite Hother by done. intros H%Hwf. lia.
  - exists c. split_and!; [done|apply Hfresh|apply handlers_of_insert| |done|].
    + rewrite handlers_of_insert. by rewrite map_size_insert_None.
    + intros k id g Hg. destruct (decide (k = c)) as [->|Hk].
      * rewrite handlers_of_insert. rewrite lookup_insert_ne; [done|].
        intros <-. by rewrite Hfresh in Hg.
      * by rewrite Hother.
Qed.

Lemma add_only_adds_witness :
  exists h',
    add Sample.unique_command Sample.fields Sample.partial_bind
        "ping" Sample.pong Handler_init = inr h' /\
    size (handlers_of (coros h') "PING") = 1 /\ wf_handler h'.
Proof.
  assert (H : add Sample.unique_command Sample.fields Sample.partial_bind
                  "ping" Sample.pong Handler_init
              = inr (Sample.registered [("ping", Sample.pong)]))
    by (by vm_compute).
  destruct (add_only_adds _ _ _ _ _ _ _ wf_handler_init H)
    as (Hwf & c & Hc & _ & _ & Hsize & _).
  assert (c = "PING") as -> by (vm_compute in Hc; congruence).
  eexists. split; [exact H|]. split; [|exact Hwf].
  rewrite Hsize. by vm_compute.
Defined.

(** X9. When the protocol table returns canonical names, the decorator
    Client.on, which normalises the command before Handler.add normalises
    it again, registers exactly as Handler.add does, and fails exactly as
    it does. *)
Theorem on_is_add
  (unique_command : string -> option string)
  (fields : string -> list string)
  (partial_bind : string -> func -> invoker)
  (Htable : canonical_table unique_command)
  (command : string) (f : func) (h : Handler) :
  on unique_command fields partial_bind command f h
    = add unique_command fields partial_bind command f h.
Proof.
  unfold on. destruct (get_command unique_command command) as [c|] eqn:Hc.
  - pose proof (get_command_fixed _ _ _ Htable Hc) as Hfix.
    unfold add. by rewrite Hc, Hfix.
  - unfold add. by rewrite Hc.
Qed.

Lemma on_is_add_witness :
  on Sample.unique_command Sample.fields Sample.partial_bind
     "001" Sample.pong Handler_init
    = add Sample.unique_command Sample.fields Sample.partial_bind
          "rpl_welcome" Sample.pong Handler_init.
Proof.
  rewrite (on_is_add _ _ _ Sample_table_canonical). reflexivity.
Defined.

(** ** What each task shows *)

Lemma events_of_app id t1 t2 :
  events_of id (t1 ++ t2) = events_of id t1 ++ events_of id t2.
Proof. apply List.filter_app. Qed.

Lemma events_of_foreign ids id t :
  Forall (task_event ids) t -> id ∉ ids -> events_of id t = [].
Proof.
  intros Ht Hid. induction Ht as [|e t He _ IH]; [done|].
  unfold events_of in *. cbn. rewrite IH.
  destruct e; cbn in *; try done;
    rewrite bool_decide_false; try done; by intros ->.
Qed.

Lemma events_of_launched id ids : events_of id (Launched <$> ids) = [].
Proof. induction ids as [|i ids IH]; [done|]. exact IH. Qed.

Lemma resume_own id c : events_of id (resume id c).1 = (resume id c).1.
Proof.
  induction c as [| e | a k IH | k IH |]; cbn;
    rewrite ?bool_decide_true by done; try done.
  destruct (resume id k) as [t s]. cbn in *.
  rewrite bool_decide_true by done. by rewrite IH.
Qed.

Lemma resume_script id c :
  script id c = (resume id c).1 ++
                match (resume id c).2 with
                | Suspended k => script id k
                | _ => []
                end.
Proof.
  induction c as [| e | a k IH | k IH |]; cbn; try done.
  destruct (resume id k) as [t s]. cbn in *. by rewrite IH.
Qed.

Arguments events_of : simpl never.

Lemma total_turns_cons id c q :
  total_turns ((id, c) :: q) = turns c + total_turns q.
Proof. reflexivity. Qed.

(** Every task of the queue shows its script, whole and in order. *)
Lemma run_ready_script fuel ready :
  NoDup ready.*1 -> total_turns ready <= fuel ->
  forall id c, (id, c) ∈ ready ->
    events_of id (run_ready fuel ready).1 = script id c.
Proof.
  revert ready. induction fuel as [|fuel IH]; intros ready Hnd Hfuel id c Hin.
  - destruct ready as [|[id0 c0] q]; [by apply elem_of_nil in Hin|].
    rewrite total_turns_cons in Hfuel. pose proof (turns_pos c0). lia.
  - destruct ready as [|[id0 c0] q]; [by apply elem_of_nil in Hin|].
    rewrite total_turns_cons in Hfuel.
    cbn in Hnd. apply NoDup_cons in Hnd as [Hfresh Hnd].
    cbn [run_ready].
    pose proof (resume_own id0 c0) as Hown.
    pose proof (resume_script id0 c0) as Hscript.
    pose proof (resume_halts id0 c0) as Hturns.
    pose proof (resume_events id0 c0) as Hev.
    pose proof (turns_pos c0) as Hpos.
    destruct (resume id0 c0) as [t s]. cbn in Hown, Hscript, Hturns, Hev.
    assert (Hforeign : id ≠ id0 -> events_of id t = []).
    { intros Hne. apply (events_of_foreign [id0]); [done|].
      by intros ->%list_elem_of_singleton. }
    assert (Hq : forall t' b, run_ready fuel q = (t', b) ->
              (id = id0 -> c = c0 -> events_of id t' = []) /\
              (id ≠ id0 -> (id, c) ∈ q -> events_of id t' = script id c)).
    { intros t' b Hrun. split.
      - intros -> _. apply (events_of_foreign q.*1); [|done].
        pose proof (run_ready_events fuel q) as H. by rewrite Hrun in H.
      - intros Hne Hc. pose proof (IH q Hnd ltac:(lia) id c Hc) as H.
        by rewrite Hrun in H. }
    apply elem_of_cons in Hin as Hcases.
    assert (Hsame : id = id0 -> c = c0).
    { intros ->. destruct Hcases as [[= ->]|Hc]; [done|].
      exfalso. apply Hfresh. apply list_elem_of_fmap. by exists (id0, c). }
    assert (Htail : id ≠ id0 -> (id, c) ∈ q).
    { intros Hne. by destruct Hcases as [[= -> _]|Hc]. }
    destruct s as [k| |].
    + destruct Hturns as [Hlt _].
      assert (Hnd' : NoDup (q ++ [(id0, k)]).*1).
      { rewrite fmap_app. apply NoDup_app. split; [done|]. split.
        - intros x Hx ->%list_elem_of_singleton. done.
        - apply NoDup_singleton. }
      assert (Hfuel' : total_turns (q ++ [(id0, k)]) <= fuel).
      { rewrite total_turns_app, total_turns_cons. cbn. lia. }
      pose proof (IH (q ++ [(id0, k)]) Hnd' Hfuel') as Hrec.
      destruct (run_ready fuel (q ++ [(id0, k)])) as [t' b]. cbn in *.
      rewrite events_of_app.
      destruct (decide (id = id0)) as [->|Hne].
      * rewrite (Hsame eq_refl), Hown, Hscript. f_equal.
        apply Hrec. apply elem_of_app. right. by apply list_elem_of_singleton.
      * rewrite (Hforeign Hne). cbn. apply Hrec.
        apply elem_of_app. left. by apply Htail.
    + destruct (run_ready fuel q) as [t' b] eqn:Hrun. cbn.
      destruct (Hq t' b eq_refl) as [Hq1 Hq2].
      rewrite events_of_app.
      destruct (decide (id = id0)) as [->|Hne].
      * rewrite (Hsame eq_refl), Hown, Hscript.
        by rewrite (Hq1 eq_refl (Hsame eq_refl)).
      * rewrite (Hforeign Hne). cbn. by apply Hq2, Htail.
    + destruct (run_ready fuel q) as [t' b] eqn:Hrun. cbn.
      destruct (Hq t' b eq_refl) as [Hq1 Hq2].
      rewrite events_of_app.
      destruct (decide (id = id0)) as [->|Hne].
      * rewrite (Hsame eq_refl), Hown, Hscript.
        by rewrite (Hq1 eq_refl (Hsame eq_refl)).
      * rewrite (Hforeign Hne). cbn. by apply Hq2, Htail.
Qed.

Lemma launches_app t1 t2 : launches (t1 ++ t2) = launches t1 ++ launches t2.
Proof. apply omap_app. Qed.

Lemma launches_launched ids : launches (Launched <$> ids) = ids.
Proof.
  unfold launches. induction ids as [|i ids IH]; [done|]. cbn. by rewrite IH.
Qed.

Lemma launches_tasks ids t : Forall (task_event ids) t -> launches t = [].
Proof.
  intros Ht. induction Ht as [|e t He _ IH]; [done|].
  destruct e; cbn in *; done.
Qed.

Lemma NoDup_tasks_for s kw : NoDup (tasks_for s kw).*1.
Proof. rewrite tasks_for_ids. apply NoDup_fst_map_to_list. Qed.

Section Group.

Variable unique_command : string -> option string.

(** What a dispatch adds to the trace, whatever its outcome. *)
Lemma call_segment command kw w c :
  get_command unique_command command = Some c ->
  let tasks := tasks_for (handlers_of (coros (handle w)) c) kw in
  exists tail,
    trace (final (call unique_command command kw w))
      = trace w ++ [Dispatched c kw] ++ (Launched <$> tasks.*1)
          ++ (run_ready (total_turns tasks) tasks).1 ++ tail /\
    (tail = [] \/ tail = [Resumed]).
Proof.
  intros Hc. cbn zeta.
  destruct (decide (handlers_of (coros (handle w)) c = ∅)) as [Hs|Hs].
  - rewrite (call_empty _ _ _ _ _ Hc Hs), Hs. exists [Resumed].
    split; [|by right]. cbn. by rewrite <- (assoc_L (++)).
  - rewrite (call_group _ _ _ _ _ Hc Hs).
    destruct (run_ready _ _) as [t [|id b]]; cbn.
    + exists [Resumed]. split; [|by right]. by rewrite <- !(assoc_L (++)).
    + exists []. split; [|by left].
      by rewrite app_nil_r, <- !(assoc_L (++)).
Qed.

End Group.

Lemma call_script unique_command command c kw w id f :
  get_command unique_command command = Some c ->
  handlers_of (coros (handle w)) c !! id = Some f ->
  exists t,
    trace (final (call unique_command command kw w)) = trace w ++ t /\
    Launched id ∈ t /\
    events_of id t = script id (f kw).
Proof.
  intros Hcommand Hhandler.
  destruct (call_segment unique_command command kw w c Hcommand)
    as (tail & Htr & Htail).
  eexists. split; [exact Htr|].
  set (tasks := tasks_for _ kw) in *.
  split.
  - apply elem_of_app. right. apply elem_of_app. left.
    apply list_elem_of_fmap. exists id. split; [done|].
    apply elem_of_tasks_for_ids. by exists f.
  - rewrite !events_of_app, events_of_launched. cbn.
    rewrite (run_ready_script _ tasks (NoDup_tasks_for _ _) (le_n _)
               id (f kw)).
    + by destruct Htail as [-> | ->]; rewrite ?app_nil_r.
    + apply elem_of_tasks_for. by exists f.
Qed.

(** X10. In one dispatch every handler registered for the command shows
    exactly its own script: its side effects in program order, each once,
    up to its return, its exception, or the wait it never leaves; this
    holds whether the dispatch returns or stalls on another handler. *)
Theorem handler_runs_its_script
  (unique_command : string -> option string)
  (command c : string) (kw : kwargs) (w : world)
  (id : objid) (f : invoker)
  (Hcommand : get_command unique_command command = Some c)
  (Hhandler : handlers_of (coros (handle w)) c !! id = Some f) :
  exists t,
    trace (final (call unique_command command kw w)) = trace w ++ t /\
    Launched id ∈ t /\
    events_of id t = script id (f kw).
Proof.
  exact (call_script unique_command command c kw w id f Hcommand Hhandler).
Qed.

Lemma handler_runs_its_script_witness :
  let h := Sample.registered [("client_connect", Sample.greet);
                              ("client_connect", Sample.stuck)] in
  let w := set_handle h (Client_init "irc.example.org" 6697) in
  exists t,
    trace (final (call Sample.unique_command "client_connect"
                       (lifecycle_fields (conn w)) w)) = t /\
    events_of 1 t = [Did 1 "send NICK"; Did 1 "send JOIN";
                     Completed 1 Returned] /\
    events_of 2 t = [Did 2 "wait"].
Proof.
  intros h w.
  destruct (handler_runs_its_script Sample.unique_command "client_connect"
              "CLIENT_CONNECT" (lifecycle_fields (conn w)) w 1%positive
              (Sample.partial_bind "CLIENT_CONNECT" Sample.greet)
              eq_refl eq_refl) as (t1 & Ht1 & _ & He1).
  destruct (handler_runs_its_script Sample.unique_command "client_connect"
              "CLIENT_CONNECT" (lifecycle_fields (conn w)) w 2%positive
              (Sample.partial_bind "CLIENT_CONNECT" Sample.stuck)
              eq_refl eq_refl) as (t2 & Ht2 & _ & He2).
  eexists. split; [reflexivity|]. rewrite Ht1 at 1. rewrite Ht2.
  cbn [trace w set_handle Client_init app]. split; [exact He1|exact He2].
Defined.

(** X11. A dispatch launches one task for each handler registered for
    the command and no other: the tasks launched are the members of the
    set, each once. *)
Theorem dispatch_launches_each_once
  (unique_command : string -> option string)
  (command c : string) (kw : kwargs) (w : world)
  (Hcommand : get_command unique_command command = Some c) :
  exists t,
    trace (final (call unique_command command kw w)) = trace w ++ t /\
    NoDup (launches t) /\
    forall id, id ∈ launches t <->
               is_Some (handlers_of (coros (handle w)) c !! id).
Proof.
  destruct (call_segment unique_command command kw w c Hcommand)
    as (tail & Htr & Htail).
  eexists. split; [exact Htr|].
  set (tasks := tasks_for _ kw) in *.
  assert (Hl : launches ([Dispatched c kw] ++ (Launched <$> tasks.*1) ++
                         (run_ready (total_turns tasks) tasks).1 ++ tail)
               = tasks.*1).
  { rewrite !launches_app, launches_launched.
    rewrite (launches_tasks _ _ (run_ready_events _ tasks)).
    destruct Htail as [-> | ->]; cbn; by rewrite app_nil_r. }
  rewrite Hl. split; [apply NoDup_tasks_for|].
  intros id. apply elem_of_tasks_for_ids.
Qed.

Lemma dispatch_launches_each_once_witness :
  let h := Sample.registered [("client_connect", Sample.greet);
                              ("ping", Sample.pong)] in
  let w := set_handle h (Client_init "irc.example.org" 6697) in
  exists t,
    trace (final (call Sample.unique_command "Ping" ∅ w)) = trace w ++ t /\
    NoDup (launches t) /\
    2%positive ∈ launches t /\ 1%positive ∉ launches t.
Proof.
  intros h w.
  destruct (dispatch_launches_each_once Sample.unique_command "Ping" "PING"
              ∅ w eq_refl) as (t & Ht & Hnd & Hiff).
  exists t. split; [exact Ht|]. split; [exact Hnd|]. split.
  - apply Hiff. apply (bool_decide_unpack _). by vm_compute.
  - intros H%Hiff. apply (bool_decide_pack _) in H. by vm_compute in H.
Defined.

(** X12. Registration and dispatch meet: a handler registered under a
    command is run, once and as its bound invoker, by the next dispatch
    of that command in whatever letter case it is named. *)
Theorem registered_handler_runs
  (unique_command : string -> option string)
  (fields : string -> list string)
  (partial_bind : string -> func -> invoker)
  (command command' : string) (f : func) (h h' : Handler)
  (kw : kwargs) (w : world)
  (Hadd : add unique_command fields partial_bind command f h = inr h')
  (Hcase : upper command' = upper command)
  (Hhandle : handle w = h') :
  exists c t,
    get_command unique_command command' = Some c /\
    trace (final (call unique_command command' kw w)) = trace w ++ t /\
    Launched (allocated h) ∈ t /\
    events_of (allocated h) t = script (allocated h) (partial_bind c f kw).
Proof.
  destruct (add_inr _ _ _ _ _ _ _ Hadd) as (c & Hc & _ & Hh').
  assert (Hc' : get_command unique_command command' = Some c).
  { unfold get_command in *. by rewrite Hcase. }
  assert (Hin : handlers_of (coros (handle w)) c !! allocated h
                = Some (partial_bind c f)).
  { rewrite Hhandle, Hh'. cbn.
    by rewrite handlers_of_insert, lookup_insert_eq. }
  destruct (call_script unique_command command' c kw w _ _ Hc' Hin)
    as (t & Ht & Hl & He).
  by exists c, t.
Qed.

Lemma registered_handler_runs_witness :
  let h' := Sample.registered [("Ping", Sample.pong)] in
  let w := set_handle h' (Client_init "irc.example.org" 6697) in
  exists t,
    trace (final (call Sample.unique_command "pInG" ∅ w)) = t /\
    events_of 1 t = [Did 1 "send PONG"; Completed 1 Returned].
Proof.
  intros h' w.
  destruct (registered_handler_runs Sample.unique_command Sample.fields
              Sample.partial_bind "Ping" "pInG" Sample.pong Handler_init h'
              ∅ w eq_refl eq_refl eq_refl) as (c & t & Hc & Ht & _ & He).
  assert (c = "PING") as -> by (vm_compute in Hc; congruence).
  exists t. split; [exact Ht|exact He].
Defined.

(** ** Refused connections *)

(** X13. A connect that fails fails cleanly: Connection.connect raises
    only the error of the refused connection, and then it has dispatched
    nothing and left the streams, the registry and the address as they
    were; one more attempt is counted. *)
Theorem connect_fails_cleanly
  (unique_command : string -> option string)
  (server : nat -> option (list string))
  (w w' : world) (e : exn)
  (Hconnect : connect unique_command server w = Exn e w') :
  e = ConnectionError /\ server (attempts w) = None /\
  conn w' = conn w /\ handle w' = handle w /\
  attempts w' = S (attempts w) /\
  trace w' = trace w ++ [Refused (host (conn w)) (port (conn w))].
Proof.
  destruct (connect_exn _ _ _ _ _ Hconnect) as [Hs ->].
  rewrite (connect_refused _ _ _ Hs) in Hconnect.
  by injection Hconnect as <-.
Qed.

Lemma connect_fails_cleanly_witness :
  let w := {| conn := Connection_init "irc.example.org" 6697;
              handle := Handler_init; attempts := 2; trace := [] |} in
  exists w',
    connect Sample.unique_command Sample.server w = Exn ConnectionError w' /\
    conn w' = conn w /\ attempts w' = 3.
Proof.
  intros w.
  assert (H : connect Sample.unique_command Sample.server w
              = Exn ConnectionError
                    (final (connect Sample.unique_command Sample.server w)))
    by reflexivity.
  destruct (connect_fails_cleanly _ _ _ _ _ H) as (_ & _ & Hc & _ & Ha & _).
  eexists. split; [exact H|]. split; [exact Hc|exact Ha].
Defined.

(** X14. There is no second try: when the stream ends and the server
    refuses the new connection, the turn of the loop has closed the
    writer and dispatched CLIENT_DISCONNECT, dispatches no CLIENT_CONNECT,
    and the loop ends there with the error, the connection left
    disconnected.  (The handlers of CLIENT_DISCONNECT finish.) *)
Theorem refused_reconnect_ends_loop
  (unique_command : string -> option string)
  (parse : string -> option parsed)
  (unpack : parsed -> string * kwargs)
  (server : nat -> option (list string))
  (w w1 : world)
  (Hread : read w = Ok "" w1)
  (Hserver : server (attempts w) = None)
  (Hhalt : forall id f,
      handlers_of (coros (handle w)) "CLIENT_DISCONNECT" !! id = Some f ->
      halts (f (lifecycle_fields (conn w)))) :
  exists w' t,
    (forall n,
       iterate (S n) (loop_body unique_command parse unpack server) w
         = Exn ConnectionError w') /\
    conn w' = released (conn w) /\ attempts w' = S (attempts w) /\
    trace w' =
      trace w ++ closing (conn w)
        ++ [Dispatched "CLIENT_DISCONNECT" (lifecycle_fields (conn w))]
        ++ t
        ++ [Resumed; Refused (host (conn w)) (port (conn w))] /\
    Forall group_event t.
Proof.
  pose proof (read_frame w) as Hframe. rewrite Hread in Hframe.
  cbn in Hframe. destruct Hframe as (Hh & Hp & Hwr & Hhd & Hatt & Htr).
  assert (Hkw : lifecycle_fields (conn w1) = lifecycle_fields (conn w)).
  { unfold lifecycle_fields. by rewrite Hh, Hp. }
  set (wd := set_conn (released (conn w1)) (emit (closing (conn w1)) w1)).
  destruct (call_halting unique_command "CLIENT_DISCONNECT"
              (lifecycle_fields (conn w1)) wd _
              (get_command_lifecycle _ _ CLIENT_DISCONNECT_local))
    as (w2 & t & Hcall & Htr2 & Hg & _ & Hconn2 & Hatt2 & _).
  { intros id f Hf. rewrite Hkw. apply (Hhalt id f).
    cbn in Hf. by rewrite Hhd in Hf. }
  assert (Hs2 : server (attempts w2) = None).
  { rewrite Hatt2. cbn. by rewrite Hatt. }
  eexists _, t. split; [|split_and!].
  - intros n. cbn [iterate]. unfold bind at 1. unfold loop_body, bind.
    rewrite Hread.
    rewrite bool_decide_false by (intros H; by apply H).
    unfold reconnect, bind. rewrite disconnect_unfold. fold wd.
    rewrite Hcall. by rewrite (connect_refused _ _ _ Hs2).
  - cbn. rewrite Hconn2. cbn. unfold released. by rewrite Hh, Hp.
  - cbn. rewrite Hatt2. cbn. by rewrite Hatt.
  - cbn. rewrite Htr2, Hconn2. cbn. rewrite Hkw, Htr, Hh, Hp.
    unfold closing. rewrite Hwr.
    rewrite <- !(assoc_L (++)). cbn. by rewrite <- !(assoc_L (++)).
  - done.
Qed.

Lemma refused_reconnect_ends_loop_witness :
  let w := {| conn := {| host := "irc.example.org"; port := 6697;
                         reader := Some []; writer := Some 1 |};
              handle := Sample.registered
                          [("client_disconnect", Sample.faulty)];
              attempts := 2; trace := [] |} in
  exists w',
    iterate 3 (loop_body Sample.unique_command Sample.parse Sample.unpack
                         Sample.server) w = Exn ConnectionError w' /\
    conn w' = released (conn w).
Proof.
  intros w.
  destruct (refused_reconnect_ends_loop Sample.unique_command Sample.parse
              Sample.unpack Sample.server w w eq_refl eq_refl)
    as (w' & t & Hloop & Hc & _).
  - subst w. cbn [handle conn].
    apply Sample_lifecycle_handlers_halt.
    map_Forall_compute; repeat (constructor; cbn);
    map_Forall_compute; repeat (constructor; cbn).
  - exists w'. split; [apply (Hloop 2)|exact Hc].
Defined.

(** ** Lines in order *)

Lemma dispatches_app t1 t2 :
  dispatches (t1 ++ t2) = dispatches t1 ++ dispatches t2.
Proof. apply omap_app. Qed.

Lemma dispatches_group t : Forall group_event t -> dispatches t = [].
Proof.
  intros Ht. induction Ht as [|e t He _ IH]; [done|].
  destruct e; cbn in *; done.
Qed.

(** X15. The loop dispatches what it reads, in the order it reads it: on
    a stream of lines none of which is blank, whose commands are ASCII
    tokens that all normalise, and with handlers that finish, as many
    turns as there are lines return, the stream is then read to its end,
    and the events dispatched are those the lines decode to, in the same
    order, one for each line the parser understands and none for the
    others. *)
Theorem lines_dispatched_in_order
  (unique_command : string -> option string)
  (parse : string -> option parsed)
  (unpack : parsed -> string * kwargs)
  (server : nat -> option (list string))
  (w : world) (lines : list string)
  (Hreader : reader (conn w) = Some lines)
  (Hlines : Forall (fun line =>
               blank line = false /\
               forall args, parse (strip line) = Some args ->
                            isascii (unpack args).1 = true /\
                            is_Some (get_command unique_command
                                                 (unpack args).1)) lines)
  (Hhalt : forall c id f kw,
      handlers_of (coros (handle w)) c !! id = Some f -> halts (f kw)) :
  exists w',
    iterate (length lines)
            (loop_body unique_command parse unpack server) w = Ok tt w' /\
    reader (conn w') = Some [] /\
    dispatches (trace w')
      = dispatches (trace w)
          ++ omap (decoded unique_command parse unpack) lines.
Proof.
  revert w Hreader Hhalt.
  induction Hlines as [|line rest [Hnb Hnorm] _ IH]; intros w Hreader Hhalt.
  - exists w. cbn. by rewrite app_nil_r.
  - set (w1 := set_conn {| host := host (conn w); port := port (conn w);
                           reader := Some rest;
                           writer := writer (conn w) |} w).
    assert (Hread : read w = Ok (strip line) w1).
    { unfold read. by rewrite Hreader. }
    assert (Hne : strip line ≠ "").
    { intros H%strip_empty_iff. congruence. }
    assert (Hstep : exists w2,
              loop_body unique_command parse unpack server w = Ok tt w2 /\
              reader (conn w2) = Some rest /\
              (forall k, handlers_of (coros (handle w2)) k
                         = handlers_of (coros (handle w)) k) /\
              dispatches (trace w2)
                = dispatches (trace w)
                    ++ option_list (decoded unique_command parse unpack line)).
    { unfold loop_body, bind. rewrite Hread.
      rewrite bool_decide_true by done. unfold decoded.
      destruct (parse (strip line)) as [args|] eqn:Hparse.
      - destruct (Hnorm args eq_refl) as [_ [c Hc]]. rewrite Hc.
        destruct (unpack args) as [command kw] eqn:Hun. cbn in Hc.
        destruct (call_halting unique_command command kw w1 c Hc)
          as (w2 & t & Hcall & Htr & Hg & _ & Hconn & _ & Hsets).
        { intros id f. apply Hhalt. }
        exists w2. split; [done|]. split; [by rewrite Hconn|].
        split; [done|].
        rewrite Htr, !dispatches_app, (dispatches_group t Hg). by cbn.
      - exists w1. split; [done|]. split; [done|]. split; [done|].
        cbn. by rewrite app_nil_r. }
    destruct Hstep as (w2 & Hbody & Hr2 & Hsets & Hd2).
    destruct (IH w2 Hr2) as (w' & Hit & Hr' & Hd').
    { intros c id f kw. rewrite Hsets. apply Hhalt. }
    exists w'. split; [|split; [done|]].
    + cbn [length iterate]. unfold bind. by rewrite Hbody.
    + rewrite Hd', Hd2. rewrite <- (assoc_L (++)). f_equal.
      cbn. by destruct (decoded unique_command parse unpack line).
Qed.

Lemma lines_dispatched_in_order_witness :
  let w := {| conn := {| host := "irc.example.org"; port := 6697;
                         reader := Some ["PING a"; ":irc.example.org";
                                         ":irc.example.org 001 bot"];
                         writer := Some 0 |};
              handle := Sample.registered [("ping", Sample.pong)];
              attempts := 1; trace := [] |} in
  exists w',
    iterate 3 (loop_body Sample.unique_command Sample.parse Sample.unpack
                         Sample.server) w = Ok tt w' /\
    (dispatches (trace w')).*1 = ["PING"; "RPL_WELCOME"].
Proof.
  intros w.
  destruct (lines_dispatched_in_order Sample.unique_command Sample.parse
              Sample.unpack Sample.server w
              ["PING a"; ":irc.example.org"; ":irc.example.org 001 bot"]
              eq_refl)
    as (w' & Hit & _ & Hd).
  - repeat (apply Forall_cons_2; [split; [reflexivity|]|]);
      [| | |apply Forall_nil_2].
    + intros args [= <-]. split; [reflexivity|by eexists].
    + by intros args [=].
    + intros args [= <-]. split; [reflexivity|by eexists].
  - intros c id f kw. subst w. cbn [handle].
    revert c id f. apply Sample_lifecycle_handlers_halt.
    map_Forall_compute; repeat (constructor; cbn);
    map_Forall_compute; repeat (constructor; cbn).
  - exists w'. split; [exact Hit|]. rewrite Hd. reflexivity.
Defined.

(** ** The keys of the registry *)

Section Keys.

Variable unique_command : string -> option string.
Variable parse : string -> option parsed.
Variable unpack : parsed -> string * kwargs.
Variable server : nat -> option (list string).

Lemma keeps_keys_ret {A} (a : A) : keeps_keys unique_command (ret a).
Proof. by intros w. Qed.

Lemma keeps_keys_bind {A B} (m : M A) (f : A -> M B) :
  keeps_keys unique_command m -> (forall a, keeps_keys unique_command (f a)) -> keeps_keys unique_command (bind m f).
Proof.
  intros Hm Hf w Hw. specialize (Hm w Hw). unfold bind.
  destruct (m w) as [a w1|e w1|w1]; cbn in *; [|done..]. by apply Hf.
Qed.

Lemma keeps_keys_call command kw :
  keeps_keys unique_command (call unique_command command kw).
Proof.
  intros w Hw k.
  destruct (get_command unique_command command) as [c|] eqn:Hc.
  - rewrite (call_coros _ _ _ _ _ Hc). unfold getitem.
    destruct (coros (handle w) !! c) eqn:E; cbn; [apply Hw|].
    destruct (decide (k = c)) as [->|Hk].
    + intros _. by exists command.
    + rewrite lookup_insert_ne by done. apply Hw.
  - rewrite call_unknown by done. apply Hw.
Qed.

Lemma keeps_keys_connect : keeps_keys unique_command (connect unique_command server).
Proof.
  intros w Hw. destruct (server (attempts w)) as [lines|] eqn:Hs.
  - rewrite (connect_opened _ _ _ _ Hs). by apply keeps_keys_call.
  - by rewrite (connect_refused _ _ _ Hs).
Qed.

Lemma keeps_keys_disconnect : keeps_keys unique_command (disconnect unique_command).
Proof.
  intros w Hw. rewrite disconnect_unfold. by apply keeps_keys_call.
Qed.

Lemma keeps_keys_read : keeps_keys unique_command read.
Proof.
  intros w Hw. destruct (read_frame w) as (_ & _ & _ & Hhd & _).
  by rewrite Hhd.
Qed.

Lemma keeps_keys_loop_body :
  keeps_keys unique_command (loop_body unique_command parse unpack server).
Proof.
  apply keeps_keys_bind; [apply keeps_keys_read|]. intros msg.
  case_bool_decide.
  - destruct (parse msg) as [args|]; [|apply keeps_keys_ret].
    destruct (unpack args) as [command kw]. apply keeps_keys_call.
  - apply keeps_keys_bind; [apply keeps_keys_disconnect|].
    intros _. apply keeps_keys_connect.
Qed.

Lemma keeps_keys_loop n :
  keeps_keys unique_command (loop unique_command parse unpack server n).
Proof.
  apply keeps_keys_bind; [apply keeps_keys_connect|]. intros _.
  induction n as [|n IH]; cbn; [apply keeps_keys_ret|].
  apply keeps_keys_bind; [apply keeps_keys_loop_body|]. by intros _.
Qed.

End Keys.

(** X16. Only normalised commands are keys of the registry: this holds
    of the registry of Handler.__init__, every Handler.add keeps it, and
    so does the read loop, whose dispatches are the only other thing that
    writes to the dictionary. *)
Theorem registry_keys_are_normalised
  (unique_command : string -> option string)
  (fields : string -> list string)
  (partial_bind : string -> func -> invoker) :
  canonical_keys unique_command Handler_init /\
  (forall command f h h',
     canonical_keys unique_command h ->
     add unique_command fields partial_bind command f h = inr h' ->
     canonical_keys unique_command h') /\
  (forall parse unpack server n w,
     canonical_keys unique_command (handle w) ->
     canonical_keys unique_command
       (handle (final (loop unique_command parse unpack server n w)))).
Proof.
  split_and!.
  - intros k [s Hs]. cbn in Hs. by rewrite lookup_empty in Hs.
  - intros command f h h' Hh Hadd.
    destruct (add_inr _ _ _ _ _ _ _ Hadd) as (c & Hc & _ & ->).
    intros k. cbn. destruct (decide (k = c)) as [->|Hk].
    + intros _. by exists command.
    + rewrite lookup_insert_ne by done. unfold getitem.
      destruct (coros h !! c) eqn:E; cbn; [apply Hh|].
      rewrite lookup_insert_ne by done. apply Hh.
  - intros parse unpack server n w. apply keeps_keys_loop.
Qed.

Lemma registry_keys_are_normalised_witness :
  canonical_keys Sample.unique_command
    (Sample.registered [("ping", Sample.pong)]).
Proof.
  destruct (registry_keys_are_normalised Sample.unique_command Sample.fields
              Sample.partial_bind) as (Hinit & Hadd & _).
  apply (Hadd "ping" Sample.pong Handler_init _ Hinit). reflexivity.
Defined.

(** ** Life cycle events and the wire *)

(** X17. The loop does not tell the events of the connection from those
    of the server: a line whose command, in any letter case, is the name
    of a life cycle event is dispatched to the handlers of that event,
    with the fields the line carries, while the connection stays as it
    is. *)
Theorem wire_reaches_lifecycle_handlers
  (unique_command : string -> option string)
  (parse : string -> option parsed)
  (unpack : parsed -> string * kwargs)
  (server : nat -> option (list string))
  (w : world) (line : string) (rest : list string)
  (args : parsed) (command : string) (kw : kwargs)
  (Hreader : reader (conn w) = Some (line :: rest))
  (Hline : blank line = false)
  (Hparse : parse (strip line) = Some args)
  (Hunpack : unpack args = (command, kw))
  (Hlocal : upper command ∈ LOCAL_COMMANDS) :
  let r := loop_body unique_command parse unpack server w in
  (forall e w', r ≠ Exn e w') /\
  (exists t, trace (final r)
             = trace w ++ [Dispatched (upper command) kw] ++ t) /\
  (forall id f,
     handlers_of (coros (handle w)) (upper command) !! id = Some f ->
     exists t, trace (final r) = trace w ++ t /\
               events_of id t = script id (f kw)) /\
  writer (conn (final r)) = writer (conn w) /\
  reader (conn (final r)) = Some rest.
Proof.
  cbn zeta.
  set (w1 := set_conn {| host := host (conn w); port := port (conn w);
                         reader := Some rest;
                         writer := writer (conn w) |} w).
  assert (Hnb : strip line ≠ "").
  { intros H%strip_empty_iff. congruence. }
  assert (Hbody : loop_body unique_command parse unpack server w
                  = call unique_command command kw w1).
  { unfold loop_body, bind, read. rewrite Hreader.
    rewrite bool_decide_true by done. by rewrite Hparse, Hunpack. }
  rewrite Hbody.
  pose proof (get_command_local unique_command command Hlocal) as Hc.
  destruct (call_dispatches unique_command command kw w1 _ Hc)
    as (Hno & t & Ht & _).
  destruct (call_frame unique_command command kw w1) as (Hconn & _).
  split_and!.
  - exact Hno.
  - by exists t.
  - intros id f Hf.
    destruct (call_script unique_command command _ kw w1 id f Hc Hf)
      as (t' & Ht' & _ & He).
    by exists t'.
  - by rewrite Hconn.
  - by rewrite Hconn.
Qed.

Lemma wire_reaches_lifecycle_handlers_witness :
  let w := {| conn := {| host := "irc.example.org"; port := 6697;
                         reader := Some ["client_disconnect now"; "PING x"];
                         writer := Some 0 |};
              handle := Sample.registered
                          [("client_disconnect", Sample.stuck)];
              attempts := 1; trace := [] |} in
  let r := loop_body Sample.unique_command Sample.parse Sample.unpack
                     Sample.server w in
  (exists t, trace (final r) = trace w ++ t /\
             events_of 1 t = [Did 1 "wait"]) /\
  writer (conn (final r)) = Some 0.
Proof.
  intros w r.
  destruct (wire_reaches_lifecycle_handlers Sample.unique_command
              Sample.parse Sample.unpack Sample.server w
              "client_disconnect now" ["PING x"]
              ("", "client_disconnect", ["now"], "") "client_disconnect"
              {[ "prefix" := VStr ""; "message" := VStr "" ]}
              eq_refl eq_refl eq_refl eq_refl)
    as (_ & _ & Hrun & Hw & _).
  - apply (bool_decide_unpack _). by vm_compute.
  - split; [|exact Hw].
    apply (Hrun 1%positive
                (Sample.partial_bind "CLIENT_DISCONNECT" Sample.stuck)).
    reflexivity.
Defined.

(** ** Life cycle events and the transport *)

Lemma count_app p t1 t2 : count p (t1 ++ t2) = count p t1 + count p t2.
Proof. unfold count. by rewrite List.filter_app, length_app. Qed.

Lemma count_none p t : Forall (fun e => p e = false) t -> count p t = 0.
Proof.
  intros Ht. unfold count. induction Ht as [|e t He _ IH]; [done|].
  cbn. by rewrite He.
Qed.

Lemma balanced_nil : lifecycle_balanced [].
Proof. by split. Qed.

Lemma balanced_app t u :
  lifecycle_balanced t -> lifecycle_balanced u -> lifecycle_balanced (t ++ u).
Proof.
  intros [H1 H2] [G1 G2]. unfold lifecycle_balanced.
  rewrite !count_app. lia.
Qed.

Lemma balanced_rest rest :
  Forall (fun e => group_event e \/ e = Resumed) rest ->
  lifecycle_balanced rest.
Proof.
  intros Hr. unfold lifecycle_balanced.
  rewrite !count_none; [done|..];
    (eapply Forall_impl; [exact Hr|]; intros e [He| ->]; [|done];
     by destruct e).
Qed.

Lemma paced_ret (inv : world -> Prop) {A} (a : A) : paced inv inv (ret a).
Proof.
  intros w Hw. exists []. rewrite app_nil_r.
  split; [done|]. split; [apply balanced_nil|]. by intros a' w' [= _ <-].
Qed.

Lemma paced_bind (pre mid post : world -> Prop) {A B}
    (m : M A) (f : A -> M B) :
  paced pre mid m -> (forall a, paced mid post (f a)) ->
  paced pre post (bind m f).
Proof.
  intros Hm Hf w Hw. destruct (Hm w Hw) as (u & Hu & Hb & Hok).
  unfold bind. destruct (m w) as [a w1|e w1|w1]; cbn in *.
  - destruct (Hf a w1 (Hok a w1 eq_refl)) as (u' & Hu' & Hb' & Hok').
    exists (u ++ u'). rewrite Hu', Hu, <- (assoc_L (++)).
    split; [done|]. split; [by apply balanced_app|done].
  - exists u. by split_and!.
  - exists u. by split_and!.
Qed.

Section Pace.

Variable unique_command : string -> option string.
Variable parse : string -> option parsed.
Variable unpack : parsed -> string * kwargs.
Variable server : nat -> option (list string).

Hypothesis server_safe :
  forall k lines line, server k = Some lines -> line ∈ lines ->
                       wire_safe unique_command parse unpack line.

Lemma paced_connect :
  paced (fun _ => True) (ready_to_read unique_command parse unpack)
        (connect unique_command server).
Proof.
  intros w _. destruct (server (attempts w)) as [lines|] eqn:Hs.
  - rewrite (connect_opened _ _ _ _ Hs).
    set (w1 := emit _ _).
    destruct (call_dispatches unique_command "CLIENT_CONNECT"
                (lifecycle_fields (conn w)) w1 _
                (get_command_lifecycle _ _ CLIENT_CONNECT_local))
      as (_ & rest & Htr & Hrest).
    exists ([Opened (host (conn w)) (port (conn w))]
              ++ [Dispatched "CLIENT_CONNECT" (lifecycle_fields (conn w))]
              ++ rest).
    split; [rewrite Htr; subst w1; cbn; by rewrite <- ?(assoc_L (++))|].
    split.
    + apply (balanced_app [_; _]); [by split|by apply balanced_rest].
    + intros a w' Hcall. apply call_ok_frame in Hcall as [Hc Ha].
      split.
      * unfold connected. rewrite Hc, Ha. cbn.
        split_and!; [by eexists|done|lia].
      * rewrite Hc. cbn. intros ls line [= <-]. by apply (server_safe _ _ _ Hs).
  - rewrite (connect_refused _ _ _ Hs).
    exists [Refused (host (conn w)) (port (conn w))].
    split; [done|]. split; [by split|done].
Qed.

Lemma paced_disconnect :
  paced (ready_to_read unique_command parse unpack) (fun _ => True)
        (disconnect unique_command).
Proof.
  intros w [(_ & Hw & _) _]. rewrite disconnect_unfold.
  set (w1 := set_conn _ _).
  destruct (call_dispatches unique_command "CLIENT_DISCONNECT"
              (lifecycle_fields (conn w)) w1 _
              (get_command_lifecycle _ _ CLIENT_DISCONNECT_local))
    as (_ & rest & Htr & Hrest).
  exists ([Closed (pred (attempts w))]
            ++ [Dispatched "CLIENT_DISCONNECT" (lifecycle_fields (conn w))]
            ++ rest).
  split; [|split; [|done]].
  - rewrite Htr. subst w1. cbn. unfold closing. rewrite Hw.
    by rewrite <- ?(assoc_L (++)).
  - apply (balanced_app [_; _]); [by split|by apply balanced_rest].
Qed.

Lemma paced_loop_body :
  paced (ready_to_read unique_command parse unpack)
        (ready_to_read unique_command parse unpack)
        (loop_body unique_command parse unpack server).
Proof.
  intros w Hw.
  assert (Hread : exists msg w1,
            read w = Ok msg w1 /\ trace w1 = trace w /\
            ready_to_read unique_command parse unpack w1 /\
            (msg ≠ "" ->
             forall c,
               match parse msg with
               | Some args =>
                   get_command unique_command (unpack args).1 = Some c ->
                   c ∉ LOCAL_COMMANDS
               | None => True
               end)).
  { destruct Hw as [([lines Hr] & Hwr & Hn) Hsafe]. unfold read. rewrite Hr.
    destruct lines as [|l ls].
    - eexists _, _. split; [done|]. split; [done|]. split.
      + split; [split_and!; [by exists []|done..]|exact Hsafe].
      + by intros H.
    - eexists _, _. split; [done|]. split; [done|]. split.
      + split; [split_and!; [by exists ls|done..]|]. cbn.
        intros lines line [= <-] Hin. apply (Hsafe _ _ Hr). by right.
      + intros _ c. destruct (parse (strip l)) as [args|] eqn:Hp; [|done].
        intros Hc.
        apply (proj2 (Hsafe _ l Hr ltac:(by left)) c (unpack args).2).
        unfold decoded. by rewrite Hp, Hc. }
  destruct Hread as (msg & w1 & Hr & Htr & Hw1 & Hsafe).
  assert (Hbody :
    loop_body unique_command parse unpack server w =
      (if bool_decide (msg ≠ "") then
         match parse msg with
         | None => ret tt
         | Some args => let '(command, kwargs) := unpack args in
                        call unique_command command kwargs
         end
       else reconnect unique_command server) w1).
  { unfold loop_body, bind. by rewrite Hr. }
  rewrite Hbody. clear Hbody. rewrite <- Htr.
  case_bool_decide as Hmsg.
  - specialize (Hsafe Hmsg). destruct (parse msg) as [args|].
    + destruct (unpack args) as [command kw] eqn:Hun. cbn in Hsafe.
      destruct (get_command unique_command command) as [c|] eqn:Hc.
      * destruct (call_dispatches unique_command command kw w1 c Hc)
          as (_ & rest & Hrest & Hg).
        exists ([Dispatched c kw] ++ rest). split; [done|]. split.
        -- apply (balanced_app [_]); [|by apply balanced_rest].
           pose proof (Hsafe c eq_refl) as Hnl.
           unfold lifecycle_balanced, count. cbn.
           rewrite !bool_decide_false; [done|..]; intros ->; apply Hnl.
           ++ apply CLIENT_DISCONNECT_local.
           ++ apply CLIENT_CONNECT_local.
        -- intros a w' Hcall. apply call_ok_frame in Hcall as [Hcc Ha].
           destruct Hw1 as [Hconn Hs1]. split.
           ++ unfold connected. by rewrite Hcc, Ha.
           ++ by rewrite Hcc.
      * rewrite call_unknown by done. exists []. rewrite app_nil_r.
        split; [done|]. split; [apply balanced_nil|done].
    + exact (paced_ret (ready_to_read unique_command parse unpack) tt w1 Hw1).
  - exact (paced_bind (ready_to_read unique_command parse unpack)
                      (fun _ => True)
                      (ready_to_read unique_command parse unpack)
                      (disconnect unique_command)
                      (fun _ => connect unique_command server)
                      paced_disconnect (fun _ => paced_connect) w1 Hw1).
Qed.

Lemma paced_loop n :
  paced (fun _ => True) (ready_to_read unique_command parse unpack)
        (loop unique_command parse unpack server n).
Proof.
  apply (paced_bind _ (ready_to_read unique_command parse unpack));
    [apply paced_connect|]. intros _.
  induction n as [|n IH]; cbn; [apply paced_ret|].
  apply (paced_bind _ (ready_to_read unique_command parse unpack));
    [apply paced_loop_body|]. by intros _.
Qed.

End Pace.

(** X18. Life cycle events follow the transport, one for one.  When the
    commands of the lines the server sends are ASCII tokens and no line
    decodes to the name of a life cycle event, what a run of
    Connection.loop adds to the trace has as many dispatches of
    CLIENT_CONNECT as connections opened and as many dispatches of
    CLIENT_DISCONNECT as writers closed, however the run ends. *)
Theorem lifecycle_events_match_transport
  (unique_command : string -> option string)
  (parse : string -> option parsed)
  (unpack : parsed -> string * kwargs)
  (server : nat -> option (list string))
  (Hserver : forall k lines line,
      server k = Some lines -> line ∈ lines ->
      wire_safe unique_command parse unpack line)
  (n : nat) (w : world) :
  exists u,
    trace (final (loop unique_command parse unpack server n w))
      = trace w ++ u /\
    count is_opened u = count (is_dispatch "CLIENT_CONNECT") u /\
    count is_closed u = count (is_dispatch "CLIENT_DISCONNECT") u.
Proof.
  destruct (paced_loop unique_command parse unpack server Hserver n w I)
    as (u & Hu & Hb & _).
  by exists u.
Qed.

Lemma Sample_server_safe :
  forall k lines line,
    Sample.server k = Some lines -> line ∈ lines ->
    wire_safe Sample.unique_command Sample.parse Sample.unpack line.
Proof.
  intros k lines line Hs Hin.
  assert (Hcases : line = "PING irc.example.org" \/
                   line = ":irc.example.org 001 bot").
  { destruct k as [|[|k]]; [| |done]; injection Hs as <-.
    - apply elem_of_cons in Hin as [->|Hin]; [by left|].
      apply list_elem_of_singleton in Hin as ->. by right.
    - apply list_elem_of_singleton in Hin as ->. by left. }
  split.
  - intros args Hp. destruct Hcases as [-> | ->]; vm_compute in Hp;
      by injection Hp as <-.
  - intros c kw Hd Hc.
    destruct Hcases as [-> | ->]; vm_compute in Hd; injection Hd as <- _;
      apply (bool_decide_pack _) in Hc; by vm_compute in Hc.
Qed.

Lemma lifecycle_events_match_transport_witness :
  let w := set_handle (Sample.registered [("ping", Sample.pong)])
                      (Client_init "irc.example.org" 6697) in
  (exists u,
     trace (final (loop Sample.unique_command Sample.parse Sample.unpack
                        Sample.server 6 w)) = trace w ++ u /\
     count is_opened u = count (is_dispatch "CLIENT_CONNECT") u /\
     count is_closed u = count (is_dispatch "CLIENT_DISCONNECT") u) /\
  count is_opened
        (trace (final (loop Sample.unique_command Sample.parse Sample.unpack
                            Sample.server 6 w))) = 2.
Proof.
  intros w. split.
  - exact (lifecycle_events_match_transport Sample.unique_command
             Sample.parse Sample.unpack Sample.server Sample_server_safe
             6 w).
  - by vm_compute.
Defined.
